(** * Leaderboard client (src/App.jsx) and the ranking engine it talks to

    The first part embeds the React component [App] of src/App.jsx: its
    state variables, its event handlers and the data-dependent part of what
    it renders.  The second part ([Module Engine]) models the ranking and
    claim-processing engine that the specification describes and that the
    client only calls over the network. *)

From Stdlib Require Import ZArith NArith Lia Bool Ascii String DecimalString.
From stdpp Require Import base list sorting.

Set Warnings "-register-all".
Local Open Scope Z_scope.

(** ** JavaScript strings

    A JavaScript string is a sequence of UTF-16 code units. *)

Definition jsstring := list N.

(** An ASCII literal of the source as a sequence of code units. *)
Definition lit (s : string) : jsstring :=
  List.map N_of_ascii (list_ascii_of_string s).

Fixpoint str_eqb (a b : jsstring) : bool :=
  match a, b with
  | [], [] => true
  | x :: a', y :: b' => N.eqb x y && str_eqb a' b'
  | _, _ => false
  end.

(** WhiteSpace and LineTerminator code points of ECMAScript, the characters
    that [String.prototype.trim] strips: TAB, LF, VT, FF, CR, SP, NBSP, the
    Unicode space separators (category Zs), LS, PS and the byte-order mark. *)
Definition is_white_space (c : N) : bool :=
  ((9 <=? c) && (c <=? 13) || (c =? 32) || (c =? 160) || (c =? 5760)
   || (8192 <=? c) && (c <=? 8202)
   || (c =? 8232) || (c =? 8233) || (c =? 8239) || (c =? 8287)
   || (c =? 12288) || (c =? 65279))%N.

Fixpoint trimStart (s : jsstring) : jsstring :=
  match s with
  | [] => []
  | c :: s' => if is_white_space c then trimStart s' else s
  end.

Definition trimEnd (s : jsstring) : jsstring := rev (trimStart (rev s)).

(** [s.trim()] *)
Definition trim (s : jsstring) : jsstring := trimEnd (trimStart s).

(** Decimal rendering of an integer, as [Number.prototype.toString] does
    (below 10^21, where JavaScript switches to exponent notation). *)
Definition decimal (z : Z) : jsstring :=
  lit (NilZero.string_of_int (Z.to_int z)).

(** ** Values

    [json] is what travels on the wire.  [value] is what the program holds
    after deserialisation: arrays and objects carry an identity, because
    [===] (and so [Array.prototype.indexOf]) compares objects by reference.
    The identity of an object is the path that leads to it inside the
    document it was deserialised from; the program only ever compares
    objects of one document with each other (an element of [users] with the
    elements of [users]).  Numbers are integers: the data model has integer
    points and the program does no arithmetic on received numbers. *)

Inductive json :=
| JNull
| JBool (b : bool)
| JNum (z : Z)
| JStr (s : jsstring)
| JArr (elems : list json)
| JObj (fields : list (jsstring * json)).

Definition oid := list nat.

Inductive value :=
| VUndefined
| VNull
| VBool (b : bool)
| VNum (z : Z)
| VStr (s : jsstring)
| VArr (o : oid) (elems : list value)
| VObj (o : oid) (fields : list (jsstring * value)).

(** Deserialisation ([JSON.parse], done by axios and by socket.io): every
    array and every object of the document becomes a fresh object. *)
Fixpoint parse (p : oid) (j : json) : value :=
  match j with
  | JNull => VNull
  | JBool b => VBool b
  | JNum z => VNum z
  | JStr s => VStr s
  | JArr l =>
      VArr p ((fix elems (i : nat) (l : list json) : list value :=
                 match l with
                 | [] => []
                 | x :: l' => parse (i :: p) x :: elems (S i) l'
                 end) O l)
  | JObj fs =>
      VObj p ((fix fields (i : nat) (fs : list (jsstring * json))
                 : list (jsstring * value) :=
                 match fs with
                 | [] => []
                 | (k, x) :: fs' => (k, parse (i :: p) x) :: fields (S i) fs'
                 end) O fs)
  end.

Fixpoint parse_elems (p : oid) (i : nat) (l : list json) : list value :=
  match l with
  | [] => []
  | x :: l' => parse (i :: p) x :: parse_elems p (S i) l'
  end.

Fixpoint parse_fields (p : oid) (i : nat) (fs : list (jsstring * json))
  : list (jsstring * value) :=
  match fs with
  | [] => []
  | (k, x) :: fs' => (k, parse (i :: p) x) :: parse_fields p (S i) fs'
  end.

(** The document a response or an event carries is deserialised at the
    root path. *)
Definition deserialize (j : json) : value := parse [] j.

(** The JSON document a value was deserialised from: identities are
    forgotten. *)
Fixpoint document (v : value) : json :=
  match v with
  | VUndefined | VNull => JNull
  | VBool b => JBool b
  | VNum z => JNum z
  | VStr s => JStr s
  | VArr _ l => JArr (List.map document l)
  | VObj _ fs => JObj (List.map (fun kv => (fst kv, document (snd kv))) fs)
  end.

(** ToBoolean *)
Definition truthy (v : value) : bool :=
  match v with
  | VUndefined | VNull => false
  | VBool b => b
  | VNum z => negb (z =? 0)
  | VStr s => match s with [] => false | _ => true end
  | VArr _ _ | VObj _ _ => true
  end.

(** [a || b] *)
Definition js_or (a b : value) : value := if truthy a then a else b.

(** [a === b]: primitives by value, arrays and objects by identity. *)
Definition strict_eq (a b : value) : bool :=
  match a, b with
  | VUndefined, VUndefined => true
  | VNull, VNull => true
  | VBool x, VBool y => Bool.eqb x y
  | VNum x, VNum y => x =? y
  | VStr x, VStr y => str_eqb x y
  | VArr o _, VArr o' _ => bool_decide (o = o')
  | VObj o _, VObj o' _ => bool_decide (o = o')
  | _, _ => false
  end.

(** ** Exceptions *)

Inductive exn :=
| TypeError
| RangeError
| ReactChildError
| AxiosError (response : option value).

Inductive result (A : Type) :=
| Ok (a : A)
| Throw (e : exn).
Arguments Ok {A} a.
Arguments Throw {A} e.

Definition rbind {A B} (r : result A) (k : A -> result B) : result B :=
  match r with
  | Ok a => k a
  | Throw e => Throw e
  end.

Fixpoint rmap {A B} (f : A -> result B) (l : list A) : result (list B) :=
  match l with
  | [] => Ok []
  | x :: l' =>
      rbind (f x) (fun y => rbind (rmap f l') (fun ys => Ok (y :: ys)))
  end.

(** ** Property access

    An object deserialised from JSON has exactly the own data properties of
    the document; when a key occurs twice the last occurrence wins. *)
Fixpoint get_field (k : jsstring) (fs : list (jsstring * value))
  : option value :=
  match fs with
  | [] => None
  | (k', v) :: fs' =>
      match get_field k fs' with
      | Some v' => Some v'
      | None => if str_eqb k k' then Some v else None
      end
  end.

(** The property names that the program reads off received data.  None of
    them is an own or inherited property of a string, a number, a boolean
    or an array. *)
Inductive prop :=
| P_id | Pusername | PtotalPoints | PuserId | PpointsClaimed
| Ptimestamp | Pmessage.

Definition prop_name (p : prop) : jsstring :=
  match p with
  | P_id => lit "_id"
  | Pusername => lit "username"
  | PtotalPoints => lit "totalPoints"
  | PuserId => lit "userId"
  | PpointsClaimed => lit "pointsClaimed"
  | Ptimestamp => lit "timestamp"
  | Pmessage => lit "message"
  end.

(** [v.p] *)
Definition get_prop (v : value) (p : prop) : result value :=
  match v with
  | VUndefined | VNull => Throw TypeError
  | VObj _ fs => Ok (default VUndefined (get_field (prop_name p) fs))
  | VBool _ | VNum _ | VStr _ | VArr _ _ => Ok VUndefined
  end.

(** [v?.p] *)
Definition get_prop_opt (v : value) (p : prop) : value :=
  match get_prop v p with
  | Ok x => x
  | Throw _ => VUndefined
  end.

(** [v[0]] *)
Definition get_index0 (v : value) : result value :=
  match v with
  | VUndefined | VNull => Throw TypeError
  | VStr s => Ok (match s with [] => VUndefined | c :: _ => VStr [c] end)
  | VArr _ l => Ok (match l with [] => VUndefined | x :: _ => x end)
  | VObj _ fs => Ok (default VUndefined (get_field (lit "0") fs))
  | VBool _ | VNum _ => Ok VUndefined
  end.

(** [v.length] *)
Definition get_length (v : value) : result value :=
  match v with
  | VUndefined | VNull => Throw TypeError
  | VStr s => Ok (VNum (Z.of_nat (length s)))
  | VArr _ l => Ok (VNum (Z.of_nat (length l)))
  | VObj _ fs => Ok (default VUndefined (get_field (lit "length") fs))
  | VBool _ | VNum _ => Ok VUndefined
  end.

(** ** Conversions to text *)

(** ToString, as a template literal applies it.  A deserialised object has
    no callable property: with an own [toString] key the conversion finds
    no method that yields a primitive and throws, without one it reaches
    [Object.prototype.toString].  An array is joined with commas, [null]
    and [undefined] elements giving the empty string. *)
Fixpoint to_string (v : value) : result jsstring :=
  match v with
  | VUndefined => Ok (lit "undefined")
  | VNull => Ok (lit "null")
  | VBool b => Ok (if b then lit "true" else lit "false")
  | VNum z => Ok (decimal z)
  | VStr s => Ok s
  | VArr _ l =>
      (fix join (first : bool) (l : list value) : result jsstring :=
         match l with
         | [] => Ok []
         | x :: l' =>
             rbind (match x with
                    | VUndefined | VNull => Ok []
                    | _ => to_string x
                    end)
               (fun s => rbind (join false l')
                  (fun r => Ok ((if first then [] else lit ",") ++ s ++ r)))
         end) true l
  | VObj _ fs =>
      match get_field (lit "toString") fs with
      | Some _ => Throw TypeError
      | None => Ok (lit "[object Object]")
      end
  end.

(** The text React puts in the document for a child [{v}]: strings and
    numbers as they are, nothing for [null], [undefined] and booleans, the
    children of an array one after the other; an object is refused
    ("Objects are not valid as a React child"). *)
Fixpoint child_text (v : value) : result jsstring :=
  match v with
  | VUndefined | VNull | VBool _ => Ok []
  | VNum z => Ok (decimal z)
  | VStr s => Ok s
  | VArr _ l =>
      (fix children (l : list value) : result jsstring :=
         match l with
         | [] => Ok []
         | x :: l' =>
             rbind (child_text x)
               (fun s => rbind (children l') (fun r => Ok (s ++ r)))
         end) l
  | VObj _ _ => Throw ReactChildError
  end.

(** ** Component state

    The seven [useState] variables of [App]. *)
Record state := mkState {
  users : value;
  selectedUserId : value;
  newUserName : jsstring;
  message : value;
  loading : bool;
  error : value;
  claimHistory : value
}.

Definition initial_state : state :=
  {| users := VArr [] [];
     selectedUserId := VStr [];
     newUserName := [];
     message := VStr [];
     loading := false;
     error := VStr [];
     claimHistory := VArr [] [] |}.

Definition setUsers (v : value) (s : state) : state :=
  mkState v (selectedUserId s) (newUserName s) (message s) (loading s)
    (error s) (claimHistory s).
Definition setSelectedUserId (v : value) (s : state) : state :=
  mkState (users s) v (newUserName s) (message s) (loading s)
    (error s) (claimHistory s).
Definition setNewUserName (n : jsstring) (s : state) : state :=
  mkState (users s) (selectedUserId s) n (message s) (loading s)
    (error s) (claimHistory s).
Definition setMessage (v : value) (s : state) : state :=
  mkState (users s) (selectedUserId s) (newUserName s) v (loading s)
    (error s) (claimHistory s).
Definition setLoading (b : bool) (s : state) : state :=
  mkState (users s) (selectedUserId s) (newUserName s) (message s) b
    (error s) (claimHistory s).
Definition setError (v : value) (s : state) : state :=
  mkState (users s) (selectedUserId s) (newUserName s) (message s)
    (loading s) v (claimHistory s).
Definition setClaimHistory (v : value) (s : state) : state :=
  mkState (users s) (selectedUserId s) (newUserName s) (message s)
    (loading s) (error s) v.

(** ** Effects

    What a handler does to the outside: HTTP requests through axios, a
    line on the console, a timer. *)
Inductive request :=
| GET (url : jsstring)
| POST (url : jsstring) (body : list (jsstring * value)).

(** The only callback the program hands to [setTimeout]. *)
Inductive callback :=
| ClearMessage.

Inductive effect :=
| Request (r : request)
| ConsoleError
| SetTimeout (cb : callback) (delay : Z).

(** How the server answers: a 2xx response with its body, or a rejection,
    with the body of the error response when one arrived. *)
Inductive http_result :=
| Resolved (data : json)
| Rejected (response : option json).

Definition network := request -> http_result.

(** A handler runs against the network, on the live state, and leaves a
    trace of effects; it may end with an exception. *)
Definition M (A : Type) : Type :=
  network -> state -> list effect -> result A * state * list effect.

Definition ret {A} (a : A) : M A := fun _ s t => (Ok a, s, t).

Definition bind {A B} (c : M A) (k : A -> M B) : M B :=
  fun net s t =>
    match c net s t with
    | (Ok a, s', t') => k a net s' t'
    | (Throw e, s', t') => (Throw e, s', t')
    end.

Declare Scope handler_scope.
Delimit Scope handler_scope with handler.
Notation "'do' x <- c ; k" := (bind c (fun x => k))
  (at level 10, x name, c at level 100, k at level 200) : handler_scope.
Notation "'run' c ; k" := (bind c (fun _ => k))
  (at level 10, c at level 100, k at level 200) : handler_scope.

Definition update (f : state -> state) : M unit :=
  fun _ s t => (Ok tt, f s, t).

Definition emit (e : effect) : M unit :=
  fun _ s t => (Ok tt, s, t ++ [e]).

Definition lift {A} (r : result A) : M A :=
  fun _ s t => (r, s, t).

(** [await axios.get(..)] / [await axios.post(..)]: the request goes out,
    the promise resolves to [res] (of which the program only reads
    [res.data]) or rejects with an error that carries the response. *)
Definition axios (r : request) : M value :=
  fun net s t =>
    match net r with
    | Resolved d => (Ok (deserialize d), s, t ++ [Request r])
    | Rejected resp =>
        (Throw (AxiosError (deserialize <$> resp)), s, t ++ [Request r])
    end.

(** [try { body } catch (err) { handler } finally { fin }] *)
Definition try_catch_finally (body : M unit) (handler : exn -> M unit)
    (fin : M unit) : M unit :=
  fun net s t =>
    let '(r, s1, t1) :=
      match body net s t with
      | (Ok a, s', t') => (Ok a, s', t')
      | (Throw e, s', t') => handler e net s' t'
      end in
    match fin net s1 t1 with
    | (Ok _, s2, t2) => (r, s2, t2)
    | (Throw e, s2, t2) => (Throw e, s2, t2)
    end.

Definition try_catch (body : M unit) (handler : exn -> M unit) : M unit :=
  try_catch_finally body handler (ret tt).

(** [err.response?.data?.message] *)
Definition error_message (e : exn) : value :=
  match e with
  | AxiosError (Some data) => get_prop_opt data Pmessage
  | _ => VUndefined
  end.

(** ** Handlers of [App]

    A handler is a closure of one render: it reads the state variables as
    that render saw them (the argument [r]) and writes through the setters
    to the live state.  The handler and the responses it awaits are run in
    one piece. *)
Local Open Scope handler_scope.

Section Handlers.

(** [import.meta.env.VITE_API_BASE_URL]: a string, or undefined when
    the variable is not set. *)
Variable API_BASE_URL : option jsstring.

Definition endpoint (path : string) : jsstring :=
  default (lit "undefined") API_BASE_URL ++ lit path.

Definition fetchClaimHistory : M unit :=
  try_catch
    (do res <- axios (GET (endpoint "/claims/history"));
     update (setClaimHistory res))
    (fun _ => emit ConsoleError).

Definition handleAddUser (r : state) : M unit :=
  if negb (truthy (VStr (trim (newUserName r)))) then
    update (setError (VStr (lit "User name cannot be empty.")))
  else
    run update (setLoading true);
    run update (setError (VStr []));
    try_catch_finally
      (do res <- axios (POST (endpoint "/users")
                          [(lit "username", VStr (newUserName r))]);
       do name <- lift (get_prop res Pusername);
       do text <- lift (to_string name);
       run update (setMessage
                     (VStr (lit "Added " ++ [34%N] ++ text ++ [34%N]
                            ++ lit "!")));
       update (setNewUserName []))
      (fun err =>
         update (setError (js_or (error_message err)
                             (VStr (lit "Failed to add user.")))))
      (update (setLoading false)).

(** [fetchClaimHistory()] is started without [await]: its request goes
    out at the call, it never rejects, and the state variable it writes
    is written by nothing else in this handler. *)
Definition handleClaimPoints (r : state) : M unit :=
  if negb (truthy (selectedUserId r)) then
    update (setError (VStr (lit "Please select a user.")))
  else
    run update (setLoading true);
    run update (setError (VStr []));
    try_catch_finally
      (do res <- axios (POST (endpoint "/claims")
                          [(lit "userId", selectedUserId r)]);
       do msg <- lift (get_prop res Pmessage);
       run update (setMessage msg);
       fetchClaimHistory)
      (fun err =>
         update (setError (js_or (error_message err)
                             (VStr (lit "Failed to claim points.")))))
      (update (setLoading false)).

(** [socket.on("leaderboard_update", ...)] *)
Definition on_leaderboard_update (updatedUsers : json) : M unit :=
  run update (setUsers (deserialize updatedUsers));
  run update (setMessage (VStr (lit "Leaderboard updated!")));
  emit (SetTimeout ClearMessage 2000).

(** [socket.on("connect_error", ...)] *)
Definition on_connect_error : M unit :=
  run emit ConsoleError;
  update (setError
            (VStr (lit "Could not connect to real-time updates. Please check backend."))).

Definition run_callback (cb : callback) : M unit :=
  match cb with
  | ClearMessage => update (setMessage (VStr []))
  end.

Section FetchUsers.

(** Whether ToNumber of a string is greater than zero. *)
Variable string_positive : jsstring -> bool.

(** [v > 0] *)
Definition greater_than_zero (v : value) : result bool :=
  match v with
  | VUndefined | VNull => Ok false
  | VBool b => Ok b
  | VNum z => Ok (0 <? z)
  | VStr s => Ok (string_positive s)
  | VArr _ _ | VObj _ _ =>
      rbind (to_string v) (fun s => Ok (string_positive s))
  end.

Definition fetchUsers (r : state) : M unit :=
  run update (setLoading true);
  run update (setError (VStr []));
  try_catch_finally
    (do res <- axios (GET (endpoint "/users"));
     run update (setUsers res);
     do len <- lift (get_length res);
     do pos <- lift (greater_than_zero len);
     if pos && negb (truthy (selectedUserId r)) then
       do first <- lift (get_index0 res);
       do id <- lift (get_prop first P_id);
       update (setSelectedUserId id)
     else ret tt)
    (fun _ => update (setError (VStr (lit "Failed to fetch users."))))
    (update (setLoading false)).

(** What can happen to the mounted component.  The effect of the first
    render starts both fetches with the closure of that render; the two
    buttons are disabled while [loading], the claim button also while
    nothing is selected. *)
Inductive event :=
| Mount
| TypeName (text : jsstring)
| SelectUser (id : jsstring)
| ClickAddUser
| ClickClaimPoints
| LeaderboardUpdate (updatedUsers : json)
| ConnectError
| Timeout (cb : callback).

Definition dispatch (e : event) (s : state) : M unit :=
  match e with
  | Mount => run fetchUsers initial_state; fetchClaimHistory
  | TypeName text => update (setNewUserName text)
  | SelectUser id => update (setSelectedUserId (VStr id))
  | ClickAddUser => if loading s then ret tt else handleAddUser s
  | ClickClaimPoints =>
      if loading s || negb (truthy (selectedUserId s)) then ret tt
      else handleClaimPoints s
  | LeaderboardUpdate updatedUsers => on_leaderboard_update updatedUsers
  | ConnectError => on_connect_error
  | Timeout cb => run_callback cb
  end%handler.

Definition step (net : network) (e : event) (s : state) : state :=
  snd (fst (dispatch e s net s [])).

Inductive reachable : state -> Prop :=
| reachable_initial : reachable initial_state
| reachable_step net e s : reachable s -> reachable (step net e s).

End FetchUsers.
End Handlers.

(** What the two list-valued state variables can hold: the empty array
    literal they start with, or a deserialised document. *)
Definition deserialised (v : value) : Prop :=
  v = VArr [] [] \/ exists j, v = deserialize j.

Definition received (s : state) : Prop :=
  deserialised (users s) /\ deserialised (claimHistory s).

(** A computation keeps [received] and, when it returns normally, returns
    a value that satisfies [R]. *)
Definition keeps_received {A} (R : A -> Prop) (c : M A) : Prop :=
  forall net s t,
    received s ->
    received (snd (fst (c net s t)))
    /\ match fst (fst (c net s t)) with
       | Ok a => R a
       | Throw _ => True
       end.

(** ** What [App] renders

    The data-dependent content of the three sections that show received
    data: the podium, the list of the remaining users and the claim
    history.  Static markup, class names and the random background colour
    of the avatars carry no data and are left out.  When several
    expressions of one element throw, the model reports one of the
    exceptions; nothing below depends on which. *)

(** [l.slice(start, end)] for integer arguments; [None] is an omitted
    [end]. *)
Definition slice {A} (l : list A) (start : Z) (end_ : option Z) : list A :=
  let len := Z.of_nat (length l) in
  let relative (i : Z) :=
    if i <? 0 then Z.max (len + i) 0 else Z.min i len in
  let k := relative start in
  let final := match end_ with None => len | Some e => relative e end in
  take (Z.to_nat (Z.max (final - k) 0)) (drop (Z.to_nat k) l).

Definition topThree (us : list value) : list value := slice us 0 (Some 3).
Definition rest (us : list value) : list value := slice us 3 None.

Fixpoint indexOf_from (i : Z) (l : list value) (x : value) : Z :=
  match l with
  | [] => -1
  | y :: l' => if strict_eq y x then i else indexOf_from (i + 1) l' x
  end.

(** [l.indexOf(x)] *)
Definition indexOf (l : list value) (x : value) : Z := indexOf_from 0 l x.

(** [const rank = users.indexOf(user) + 1] *)
Definition rank (us : list value) (user : value) : Z := indexOf us user + 1.

(** A [key] attribute: none when the expression is undefined, otherwise
    the expression converted to a string. *)
Definition react_key (v : value) : result (option jsstring) :=
  match v with
  | VUndefined => Ok None
  | _ => rbind (to_string v) (fun s => Ok (Some s))
  end.

(** [rank === 1 ? "#FFD700" : rank === 2 ? "#C0C0C0" : "#CD7F32"] *)
Definition borderColor (rank : Z) : jsstring :=
  if rank =? 1 then lit "#FFD700"
  else if rank =? 2 then lit "#C0C0C0"
  else lit "#CD7F32".

(** [orders[index]] with [orders = [1, 0, 2]], inside the class name
    [order-${...}]. *)
Definition order_class (index : nat) : jsstring :=
  lit "order-" ++
  match nth_error [1; 0; 2] index with
  | Some o => decimal o
  | None => lit "undefined"
  end.

Record podium_card := mkPodiumCard {
  pc_key : option jsstring;
  pc_class : jsstring;
  pc_border : jsstring;
  pc_initial : jsstring;
  pc_name : jsstring;
  pc_points : jsstring;
  pc_rank : Z
}.

Record list_row := mkListRow {
  lr_key : option jsstring;
  lr_rank : Z;
  lr_initial : jsstring;
  lr_name : jsstring;
  lr_points : jsstring
}.

Record history_row := mkHistoryRow {
  hr_key : option jsstring;
  hr_name : jsstring;
  hr_points : jsstring;
  hr_time : jsstring
}.

Inductive history_view :=
| NoClaims (text : jsstring)
| ClaimRows (rows : list history_row).

(** The largest time value a Date holds, in milliseconds. *)
Definition max_time : Z := 8640000000000000.

(** TimeClip: [None] is NaN, the time value of an invalid Date. *)
Definition time_clip (t : Z) : option Z :=
  if Z.abs t <=? max_time then Some t else None.

(** [{error && <p ...>{error}</p>}] (and the same for [message]): a
    paragraph with the value as its child when the value is truthy,
    otherwise the falsy value itself as a child. *)
Inductive banner :=
| Paragraph (text : jsstring)
| Bare (text : jsstring).

Definition render_banner (v : value) : result banner :=
  if truthy v then rbind (child_text v) (fun t => Ok (Paragraph t))
  else rbind (child_text v) (fun t => Ok (Bare t)).

(** A participant whose display name is a non-empty string. *)
Definition has_display_name (u : value) : bool :=
  match u with
  | VObj _ _ =>
      match get_prop_opt u Pusername with
      | VStr (_ :: _) => true
      | _ => false
      end
  | _ => false
  end.

(** Neither an array nor an object. *)
Definition scalar (v : value) : bool :=
  match v with
  | VArr _ _ | VObj _ _ => false
  | _ => true
  end.

(** The participant reference of a claim record: missing, a bare
    identifier, or the participant itself, whose name may be missing. *)
Definition participant_reference (v : value) : bool :=
  match v with
  | VArr _ _ => false
  | VObj _ _ => scalar (get_prop_opt v Pusername)
  | _ => true
  end.

Section View.

(** [String.prototype.toUpperCase] *)
Variable toUpperCase : jsstring -> jsstring.

(** [Date.parse]: the time value of a date string, [None] when the string
    is not a date. *)
Variable Date_parse : jsstring -> option Z.

(** What [format] of date-fns returns for a valid date and a pattern (it
    depends on the time zone of the browser). *)
Variable format_valid : Z -> jsstring -> jsstring.

(** [v.toUpperCase()]: only a string has the method. *)
Definition call_toUpperCase (v : value) : result value :=
  match v with
  | VStr s => Ok (VStr (toUpperCase s))
  | _ => Throw TypeError
  end.

(** [user.username[0].toUpperCase()] as a child of the avatar. *)
Definition avatar_initial (user : value) : result jsstring :=
  rbind (get_prop user Pusername) (fun name =>
  rbind (get_index0 name) (fun c =>
  rbind (call_toUpperCase c) child_text)).

(** The body of [topThree.map((user, index) => ...)]. *)
Definition render_podium_card (us : list value) (index : nat) (user : value)
  : result podium_card :=
  let r := rank us user in
  rbind (get_prop user P_id) (fun id =>
  rbind (react_key id) (fun key =>
  rbind (avatar_initial user) (fun initial =>
  rbind (get_prop user Pusername) (fun name =>
  rbind (child_text name) (fun name_text =>
  rbind (get_prop user PtotalPoints) (fun points =>
  rbind (child_text points) (fun points_text =>
  Ok (mkPodiumCard key (order_class index) (borderColor r) initial
        name_text points_text r)))))))).

(** The body of [rest.map((user) => ...)]. *)
Definition render_list_row (us : list value) (user : value)
  : result list_row :=
  let r := rank us user in
  rbind (get_prop user P_id) (fun id =>
  rbind (react_key id) (fun key =>
  rbind (avatar_initial user) (fun initial =>
  rbind (get_prop user Pusername) (fun name =>
  rbind (child_text name) (fun name_text =>
  rbind (get_prop user PtotalPoints) (fun points =>
  rbind (child_text points) (fun points_text =>
  Ok (mkListRow key r initial name_text points_text)))))))).

(** [l.map((x, index) => f index x)] with a callback that may throw. *)
Fixpoint rmapi {A B} (f : nat -> A -> result B) (i : nat) (l : list A)
  : result (list B) :=
  match l with
  | [] => Ok []
  | x :: l' =>
      rbind (f i x) (fun y =>
      rbind (rmapi f (S i) l') (fun ys => Ok (y :: ys)))
  end.

Definition render_podium (us : list value) : result (list podium_card) :=
  rmapi (render_podium_card us) O (topThree us).

Definition render_rest (us : list value) : result (list list_row) :=
  rmap (render_list_row us) (rest us).

(** The two sections that show [users]: only an array has [map], so any
    other value of the state variable makes the render throw. *)
Definition render_board (us : value)
  : result (list podium_card * list list_row) :=
  match us with
  | VArr _ l =>
      rbind (render_podium l) (fun cards =>
      rbind (render_rest l) (fun rows => Ok (cards, rows)))
  | _ => Throw TypeError
  end.

(** [new Date(v)]: the time value of the new Date. *)
Definition new_Date (v : value) : result (option Z) :=
  match v with
  | VUndefined => Ok None
  | VNull => Ok (Some 0)
  | VBool b => Ok (Some (if b then 1 else 0))
  | VNum z => Ok (time_clip z)
  | VStr s => Ok (Date_parse s)
  | VArr _ _ | VObj _ _ => rbind (to_string v) (fun s => Ok (Date_parse s))
  end.

(** [format(date, pattern)] of date-fns throws a RangeError on an invalid
    date. *)
Definition format (date : option Z) (pattern : jsstring) : result jsstring :=
  match date with
  | Some t => Ok (format_valid t pattern)
  | None => Throw RangeError
  end.

(** The body of [claimHistory.map((claim) => ...)]. *)
Definition render_claim (claim : value) : result history_row :=
  rbind (get_prop claim P_id) (fun id =>
  rbind (react_key id) (fun key =>
  rbind (get_prop claim PuserId) (fun user =>
  rbind (child_text (js_or (get_prop_opt user Pusername)
                       (VStr (lit "Unknown User")))) (fun name =>
  rbind (get_prop claim PpointsClaimed) (fun points =>
  rbind (child_text points) (fun points_text =>
  rbind (get_prop claim Ptimestamp) (fun ts =>
  rbind (if truthy ts then
           rbind (new_Date ts) (fun d => format d (lit "MMM dd, hh:mm a"))
         else Ok (lit "N/A")) (fun time =>
  Ok (mkHistoryRow key name (lit "+" ++ points_text ++ lit " pts")
        time))))))))).

(** The "Recent Claims" section: [claimHistory.length] is read first, and
    only an array has [map]. *)
Definition render_history (h : value) : result history_view :=
  rbind (get_length h) (fun len =>
  if strict_eq len (VNum 0) then
    Ok (NoClaims (lit "No claims recorded yet."))
  else match h with
       | VArr _ claims =>
           rbind (rmap render_claim claims) (fun rows => Ok (ClaimRows rows))
       | _ => Throw TypeError
       end).

(** The timestamp of a claim record: missing (falsy), or a number or a
    string that denotes a date. *)
Definition timestamp_field (v : value) : bool :=
  negb (truthy v) ||
  match v with
  | VNum z => bool_decide (is_Some (time_clip z))
  | VStr s => bool_decide (is_Some (Date_parse s))
  | _ => false
  end.

(** A claim record as the data model types it, every field optional: an
    object with a scalar identifier, a participant reference, scalar
    points and a timestamp. *)
Definition claim_record (claim : value) : bool :=
  match claim with
  | VObj _ _ =>
      scalar (get_prop_opt claim P_id)
      && participant_reference (get_prop_opt claim PuserId)
      && scalar (get_prop_opt claim PpointsClaimed)
      && timestamp_field (get_prop_opt claim Ptimestamp)
  | _ => false
  end.

(** What the section must show for a record with missing parts. *)
Definition row_of_claim (claim : value) (row : history_row) : Prop :=
  render_claim claim = Ok row
  /\ (truthy (get_prop_opt (get_prop_opt claim PuserId) Pusername) = false ->
      hr_name row = lit "Unknown User")
  /\ (truthy (get_prop_opt claim Ptimestamp) = false ->
      hr_time row = lit "N/A").

End View.

(** ** The avatar colour

    [getRandomColor] draws [Math.floor(Math.random() * 16777215)], an
    integer between 0 and 16777214 since [Math.random()] is below 1, and
    writes it as a colour.  The draw is the argument of the model. *)

(** The digit of a value below 16, as [toString(16)] writes it. *)
Definition hex_digit (d : N) : N := (if d <? 10 then 48 + d else 87 + d)%N.

Fixpoint hex_digits (fuel : nat) (n : N) (acc : jsstring) : jsstring :=
  match fuel with
  | O => acc
  | S fuel' =>
      let acc' := hex_digit (n mod 16) :: acc in
      if (n / 16 =? 0)%N then acc' else hex_digits fuel' (n / 16) acc'
  end.

(** [n.toString(16)] for a non-negative integer: a number has no more
    hexadecimal digits than bits. *)
Definition toString16 (n : N) : jsstring :=
  hex_digits (S (N.to_nat (N.log2 n))) n [].

(** [s.padStart(maxLength, fill)] *)
Definition padStart (s : jsstring) (maxLength : nat) (fill : jsstring)
  : jsstring :=
  let need := (maxLength - length s)%nat in
  match fill with
  | [] => s
  | _ => take need (concat (repeat fill need)) ++ s
  end.

Definition getRandomColor (draw : N) : jsstring :=
  lit "#" ++ padStart (toString16 draw) 6 (lit "0").

(** The number a string of hexadecimal digits denotes. *)
Definition hex_value (s : jsstring) : N :=
  fold_left (fun acc c => 16 * acc + (if c <? 58 then c - 48 else c - 87))%N
    s 0%N.

Definition is_hex_char (c : N) : bool :=
  ((48 <=? c) && (c <=? 57) || (97 <=? c) && (c <=? 102))%N.

(** ** Participants as the data model types them *)


(** ** The ranking and claim-processing engine

    The client above only displays what the server sends; the engine that
    produces snapshots and history is not part of the client sources. *)
Module Engine.

Local Open Scope nat_scope.

(** Modelled from the spec: the Participant of the data model (section 3),
    whose source is missing from the client repository.  [registered] is
    the registration order that breaks ties in the ranking. *)
Record Participant := mkParticipant {
  identifier : nat;
  displayName : jsstring;
  totalPoints : N;
  registered : nat
}.

(** Modelled from the spec: the ClaimRecord of the data model (section 3),
    which is missing from the client repository.  The points awarded are a
    positive integer. *)
Record ClaimRecord := mkClaimRecord {
  participant : nat;
  pointsAwarded : positive;
  timestamp : N;
  sequence : nat
}.

(** Modelled from the spec: the error taxonomy of section 7, missing from
    the client repository. *)
Inductive error :=
| NotFoundError
| ValidationError
| InternalConsistencyError.

(** Modelled from the spec: the state of the engine, missing from the
    client repository: the Ranking Table in registration order and the
    append-only Claim Ledger, oldest record first. *)
Record engine := mkEngine {
  table : list Participant;
  ledger : list ClaimRecord
}.

(** Modelled from the spec: the engine before any registration. *)
Definition initial : engine := mkEngine [] [].

(** Modelled from the spec: the order of a RankingSnapshot (section 3),
    missing from the client repository: total points descending, ties
    broken by earliest registration. *)
Definition rank_compare (a b : Participant) : comparison :=
  match N.compare (totalPoints b) (totalPoints a) with
  | Eq => Nat.compare (registered a) (registered b)
  | c => c
  end.

(** Modelled from the spec: the same order of section 3 as a relation,
    [a] ranks strictly before [b]; missing from the client repository. *)
Definition ranks_before (a b : Participant) : Prop :=
  (totalPoints b < totalPoints a)%N
  \/ (totalPoints a = totalPoints b /\ registered a < registered b).

(** Modelled from the spec: one step of the sort of [getSnapshot] (4.1),
    missing from the client repository: [x] goes before the first entry
    it does not rank after. *)
Fixpoint insert_ranked (x : Participant) (l : list Participant)
  : list Participant :=
  match l with
  | [] => [x]
  | y :: l' =>
      match rank_compare x y with
      | Gt => y :: insert_ranked x l'
      | _ => x :: l
      end
  end.

(** Modelled from the spec: [getSnapshot] of the Ranking Table (4.1),
    missing from the client repository: the order is recomputed from the
    table on every read. *)
Definition getSnapshot (e : engine) : list Participant :=
  foldr insert_ranked [] (table e).

(** Modelled from the spec: [registerParticipant] (section 6) with the
    ValidationError of section 7 for an empty name; missing from the
    client repository. *)
Definition registerParticipant (name : jsstring) (e : engine)
  : engine * (Participant + error) :=
  match name with
  | [] => (e, inr ValidationError)
  | _ =>
      let p := mkParticipant (length (table e)) name 0%N (length (table e)) in
      (mkEngine (table e ++ [p]) (ledger e), inl p)
  end.

(** Modelled from the spec: [applyClaim] of the Ranking Table (4.1),
    missing from the client repository: [None] is the NotFoundError for an
    unknown identifier. *)
Fixpoint add_points (id : nat) (pts : positive) (t : list Participant)
  : option (list Participant) :=
  match t with
  | [] => None
  | p :: t' =>
      if Nat.eqb (identifier p) id then
        Some (mkParticipant (identifier p) (displayName p)
                (totalPoints p + Npos pts) (registered p) :: t')
      else option_map (cons p) (add_points id pts t')
  end.

(** Modelled from the spec: [append] of the Claim Ledger (4.2), missing
    from the client repository: the committed record gets the next
    sequence number and a timestamp that never runs backwards. *)
Definition append (id : nat) (pts : positive) (now : N)
    (l : list ClaimRecord) : ClaimRecord :=
  let t := match last l with
           | Some r => N.max now (timestamp r)
           | None => now
           end in
  mkClaimRecord id pts t (length l).

(** Modelled from the spec: [claim] of the Claim Processor (4.3), missing
    from the client repository.  [award] is what the award policy drew and
    [now] the reading of the clock; the score and the ledger change
    together or not at all. *)
Definition claim (id : nat) (award : positive) (now : N) (e : engine)
  : engine * (ClaimRecord + error) :=
  match add_points id award (table e) with
  | None => (e, inr NotFoundError)
  | Some t =>
      let r := append id award now (ledger e) in
      (mkEngine t (ledger e ++ [r]), inl r)
  end.

(** Modelled from the spec: [history(limit, before?)] of the Claim Ledger
    (4.2), missing from the client repository: newest first, below the
    cursor [before] on the sequence number when one is given. *)
(** Modelled from the spec: the cursor of [history] (4.2), missing from
    the client repository: a bound on the sequence number. *)
Definition cursor_test (before : option nat) (r : ClaimRecord) : bool :=
  match before with
  | Some c => sequence r <? c
  | None => true
  end.

Definition history (limit : nat) (before : option nat)
    (l : list ClaimRecord) : list ClaimRecord :=
  take limit (List.filter (cursor_test before) (rev l)).

(** Modelled from the spec: [listHistory(limit)] of section 6, missing
    from the client repository. *)
Definition listHistory (limit : nat) (e : engine) : list ClaimRecord :=
  history limit None (ledger e).

(** Modelled from the spec: the test [mergeRemote] (4.2) deduplicates by,
    missing from the client repository: whether the ledger holds a record
    with this sequence number. *)
Definition has_sequence (n : nat) (l : list ClaimRecord) : bool :=
  existsb (fun r => Nat.eqb (sequence r) n) l.

(** Modelled from the spec: the place of a record in a ledger ordered by
    sequence number (section 3), missing from the client repository. *)
Fixpoint insert_record (r : ClaimRecord) (l : list ClaimRecord)
  : list ClaimRecord :=
  match l with
  | [] => [r]
  | x :: l' =>
      if sequence r <? sequence x then r :: l
      else x :: insert_record r l'
  end.

(** Modelled from the spec: what [mergeRemote] (4.2) does with one pushed
    record, missing from the client repository: a record whose sequence
    number the cached ledger already holds is dropped, any other is put in
    its place by sequence number. *)
Definition merge_one (l : list ClaimRecord) (r : ClaimRecord)
  : list ClaimRecord :=
  if has_sequence (sequence r) l then l else insert_record r l.

(** Modelled from the spec: [mergeRemote(records)] of the Claim Ledger
    (4.2), missing from the client repository: the pushed batch is merged
    record by record, deduplicated by sequence number. *)
Definition mergeRemote (records : list ClaimRecord) (l : list ClaimRecord)
  : list ClaimRecord :=
  foldl merge_one l records.

(** Modelled from the spec: the inbound operations of section 6 that
    change the engine, missing from the client repository. *)
Inductive op :=
| Register (name : jsstring)
| Claim (id : nat) (award : positive) (now : N).

(** Modelled from the spec: one inbound operation applied to the engine;
    an operation that fails leaves the engine as it was (section 7). *)
Definition exec_op (e : engine) (o : op) : engine :=
  match o with
  | Register name => fst (registerParticipant name e)
  | Claim id award now => fst (claim id award now e)
  end.

(** Modelled from the spec: the engine after a sequence of operations on
    the empty engine. *)
Definition exec (ops : list op) : engine := foldl exec_op initial ops.

(** Modelled from the spec: the scenario of section 8: A, B and C register in that order, A
    claims 10 points, then B claims 20; both claims are committed at the
    same reading of the clock. *)
Definition scenario : list op :=
  [Register (lit "A"); Register (lit "B"); Register (lit "C");
   Claim 0 10 1000; Claim 1 20 1000].

(** Modelled from the spec: [a] ranks before [b] or ties with it. *)
Definition ranks_le (a b : Participant) : Prop := rank_compare a b <> Gt.

(** Modelled from the spec: participants are numbered by registration,
    records by commit (sequence numbers gap-free and increasing,
    section 8). *)
Definition consistent (e : engine) : Prop :=
  List.map registered (table e) = seq 0 (length (table e))
  /\ List.map sequence (ledger e) = seq 0 (length (ledger e)).

(** Modelled from the spec: [a] was committed after [b]. *)
Definition newer (a b : ClaimRecord) : Prop := sequence b < sequence a.

(** Modelled from the spec: whether a record is below the cursor of a
    history page. *)
Definition below_cursor (before : option nat) (r : ClaimRecord) : Prop :=
  match before with
  | Some c => sequence r < c
  | None => True
  end.

End Engine.

(** * Properties of the client *)

(** ** Strings *)

Lemma trimStart_blank (s : jsstring) :
  Forall (fun c => is_white_space c = true) s -> trimStart s = [].
Proof.
  induction 1 as [|c s Hc _ IH]; simpl; [reflexivity|].
  now rewrite Hc.
Qed.

Lemma trim_blank (s : jsstring) :
  Forall (fun c => is_white_space c = true) s -> trim s = [].
Proof.
  intros H. unfold trim, trimEnd. now rewrite (trimStart_blank s H).
Qed.

Lemma trimStart_head (c : N) (s : jsstring) :
  is_white_space c = false -> trimStart (c :: s) = c :: s.
Proof. intros H. simpl. now rewrite H. Qed.

Lemma trimStart_suffix (s : jsstring) : exists p, s = p ++ trimStart s.
Proof.
  induction s as [|c s [p IH]]; simpl.
  - now exists [].
  - destruct (is_white_space c).
    + exists (c :: p). simpl. now rewrite <- IH.
    + now exists [].
Qed.

(** A name with a character that is not white space survives [trim]. *)
Lemma trim_not_blank (s : jsstring) :
  Exists (fun c => is_white_space c = false) s -> trim s <> [].
Proof.
  intros H.
  assert (Hs : forall u, Exists (fun c => is_white_space c = false) u ->
                         trimStart u <> []).
  { clear. induction 1 as [c u Hc|c u _ IH]; simpl.
    - now rewrite Hc.
    - destruct (is_white_space c); [assumption|discriminate]. }
  assert (He : Exists (fun c => is_white_space c = false) (trimStart s)).
  { clear Hs. induction H as [c u Hc|c u _ IH]; simpl.
    - rewrite Hc. now constructor.
    - destruct (is_white_space c) eqn:E; [assumption|].
      constructor. exact E. }
  unfold trim, trimEnd. intros Hnil.
  apply (f_equal (@rev N)) in Hnil. rewrite rev_involutive in Hnil.
  simpl in Hnil. revert Hnil. apply Hs.
  apply List.Exists_exists in He as (c & Hin & Hc).
  apply List.Exists_exists. exists c. split; [|assumption].
  now apply in_rev in Hin.
Qed.

(** ** Registration: the guard of [handleAddUser] *)

(** C1: when the entered name is empty or made of white space only,
    [handleAddUser] sets the error message "User name cannot be empty.",
    which the error paragraph then shows, and does nothing else: no request
    is issued, and the user list, the claim history, the entered name and
    every other state variable keep their values. *)
Theorem handleAddUser_blank_name
    (API_BASE_URL : option jsstring) (r s : state) (net : network)
    (t : list effect) :
  Forall (fun c => is_white_space c = true) (newUserName r) ->
  handleAddUser API_BASE_URL r net s t =
    (Ok tt,
     mkState (users s) (selectedUserId s) (newUserName s) (message s)
       (loading s) (VStr (lit "User name cannot be empty."))
       (claimHistory s),
     t)
  /\ render_banner (VStr (lit "User name cannot be empty.")) =
       Ok (Paragraph (lit "User name cannot be empty.")).
Proof.
  intros Hblank. split; [|reflexivity].
  unfold handleAddUser. rewrite (trim_blank _ Hblank). reflexivity.
Qed.

Lemma handleAddUser_blank_name_witness :
  let r := setNewUserName (lit "  ") initial_state in
  Forall (fun c => is_white_space c = true) (newUserName r) /\
  handleAddUser None r (fun _ => Rejected None) r [] =
    (Ok tt, setError (VStr (lit "User name cannot be empty.")) r, []).
Proof.
  assert (H : Forall (fun c => is_white_space c = true)
                (newUserName (setNewUserName (lit "  ") initial_state))).
  { repeat constructor. }
  split; [exact H|].
  exact (proj1 (handleAddUser_blank_name None _ _ (fun _ => Rejected None)
                  [] H)).
Defined.

(** The guard does not swallow real names: with a character that is not
    white space the POST request goes out first. *)
Lemma handleAddUser_named_posts
    (API_BASE_URL : option jsstring) (r s : state) (net : network) :
  Exists (fun c => is_white_space c = false) (newUserName r) ->
  exists rest,
    snd (handleAddUser API_BASE_URL r net s []) =
      Request (POST (endpoint API_BASE_URL "/users")
                 [(lit "username", VStr (newUserName r))]) :: rest.
Proof.
  intros H. apply trim_not_blank in H.
  unfold handleAddUser. destruct (trim (newUserName r)) as [|c u] eqn:E;
    [contradiction|clear H E]. simpl.
  unfold bind, try_catch_finally, update, axios. simpl.
  destruct (net _) as [d|resp]; simpl.
  - unfold lift.
    destruct (get_prop (deserialize d) Pusername) as [name|e]; simpl;
      [destruct (to_string name); simpl|]; eexists; reflexivity.
  - eexists; reflexivity.
Qed.

(** ** Claiming: the guard of [handleClaimPoints] *)

(** C2: when no participant identifier is selected (the selected value is
    falsy, as the initial empty string is), [handleClaimPoints] sets the
    error message "Please select a user.", which the error paragraph then
    shows, and nothing else happens: no claim request is issued, and the
    user list, the claim history and the selected participant are what
    they were. *)
Theorem handleClaimPoints_nothing_selected
    (API_BASE_URL : option jsstring) (r s : state) (net : network)
    (t : list effect) :
  truthy (selectedUserId r) = false ->
  handleClaimPoints API_BASE_URL r net s t =
    (Ok tt,
     mkState (users s) (selectedUserId s) (newUserName s) (message s)
       (loading s) (VStr (lit "Please select a user.")) (claimHistory s),
     t)
  /\ render_banner (VStr (lit "Please select a user.")) =
       Ok (Paragraph (lit "Please select a user.")).
Proof.
  intros Hnone. split; [|reflexivity].
  unfold handleClaimPoints. rewrite Hnone. reflexivity.
Qed.

Lemma handleClaimPoints_nothing_selected_witness :
  truthy (selectedUserId initial_state) = false /\
  handleClaimPoints None initial_state (fun _ => Resolved JNull)
    initial_state [] =
    (Ok tt, setError (VStr (lit "Please select a user.")) initial_state, []).
Proof.
  split; [reflexivity|].
  exact (proj1 (handleClaimPoints_nothing_selected None initial_state
                  initial_state (fun _ => Resolved JNull) [] eq_refl)).
Defined.

(** When an identifier is selected and the server refuses the claim (the
    participant is unknown to it), the client issues exactly the claim
    request, shows the message of the server or "Failed to claim points.",
    and keeps its user list, claim history and selection. *)
Lemma handleClaimPoints_rejected
    (API_BASE_URL : option jsstring) (r s : state) (net : network)
    (resp : option json) :
  truthy (selectedUserId r) = true ->
  net (POST (endpoint API_BASE_URL "/claims")
         [(lit "userId", selectedUserId r)]) = Rejected resp ->
  handleClaimPoints API_BASE_URL r net s [] =
    (Ok tt,
     mkState (users s) (selectedUserId s) (newUserName s) (message s)
       false
       (js_or (error_message (AxiosError (deserialize <$> resp)))
          (VStr (lit "Failed to claim points.")))
       (claimHistory s),
     [Request (POST (endpoint API_BASE_URL "/claims")
                 [(lit "userId", selectedUserId r)])]).
Proof.
  intros Hsel Hnet. unfold handleClaimPoints. rewrite Hsel. simpl.
  unfold bind, try_catch_finally, update, axios. simpl.
  rewrite Hnet. reflexivity.
Qed.

(** ** Push events *)

Lemma parse_JArr (p : oid) (l : list json) :
  parse p (JArr l) = VArr p (parse_elems p 0 l).
Proof.
  simpl. f_equal. generalize 0%nat.
  induction l as [|x l IH]; intros i; simpl; [reflexivity|].
  now rewrite IH.
Qed.

Lemma parse_JObj (p : oid) (fs : list (jsstring * json)) :
  parse p (JObj fs) = VObj p (parse_fields p 0 fs).
Proof.
  simpl. f_equal. generalize 0%nat.
  induction fs as [|[k x] fs IH]; intros i; simpl; [reflexivity|].
  now rewrite IH.
Qed.

Lemma document_parse (j : json) : forall p, document (parse p j) = j.
Proof.
  revert j. fix IH 1. intros [| b | z | s | l | fs] p.
  - reflexivity.
  - reflexivity.
  - reflexivity.
  - reflexivity.
  - rewrite parse_JArr. simpl. f_equal. generalize 0%nat.
    induction l as [|x l IHl]; intros i; simpl; [reflexivity|].
    rewrite IH, IHl. reflexivity.
  - rewrite parse_JObj. simpl. f_equal. generalize 0%nat.
    induction fs as [|[k x] fs IHfs]; intros i; simpl; [reflexivity|].
    rewrite IH, IHfs. reflexivity.
Qed.

(** C3: after a [leaderboard_update] event the user list of the observer
    is the deserialised snapshot of the event, whole: its content is the
    document the event carried, and it is the same whatever state the
    observer was in before; so are the podium and the remaining list
    rendered from it. *)
Theorem leaderboard_update_replaces_view
    (toUpperCase : jsstring -> jsstring)
    (updatedUsers : json) (net1 net2 : network) (s1 s2 : state)
    (t1 t2 : list effect) :
  let after1 := snd (fst (on_leaderboard_update updatedUsers net1 s1 t1)) in
  let after2 := snd (fst (on_leaderboard_update updatedUsers net2 s2 t2)) in
  users after1 = deserialize updatedUsers
  /\ document (users after1) = updatedUsers
  /\ users after2 = users after1
  /\ render_board toUpperCase (users after2) =
       render_board toUpperCase (users after1).
Proof.
  simpl. repeat split. apply document_parse.
Qed.

(** The event changes nothing else than the user list and the message, and
    arms the timer that clears the message two seconds later. *)
Lemma on_leaderboard_update_run
    (updatedUsers : json) (net : network) (s : state) (t : list effect) :
  on_leaderboard_update updatedUsers net s t =
    (Ok tt,
     mkState (deserialize updatedUsers) (selectedUserId s) (newUserName s)
       (VStr (lit "Leaderboard updated!")) (loading s) (error s)
       (claimHistory s),
     t ++ [SetTimeout ClearMessage 2000]).
Proof. reflexivity. Qed.

(** The client has no merge of its own: it reconciles by replacement, so
    the same event delivered twice leaves the state it leaves when
    delivered once. *)
Lemma on_leaderboard_update_twice
    (updatedUsers : json) (net : network) (s : state) (t t' : list effect) :
  let once := snd (fst (on_leaderboard_update updatedUsers net s t)) in
  snd (fst (on_leaderboard_update updatedUsers net once t')) = once.
Proof. reflexivity. Qed.

(** ** Podium and remaining list *)

Lemma topThree_take (us : list value) : topThree us = take 3 us.
Proof.
  unfold topThree, slice. simpl.
  rewrite (Z.min_l 0) by lia. simpl. rewrite drop_0.
  destruct (Nat.le_gt_cases 3 (length us)) as [Hlong|Hshort].
  - replace (Z.to_nat _) with 3%nat by lia. reflexivity.
  - replace (Z.to_nat _) with (length us) by lia.
    rewrite !take_ge by lia. reflexivity.
Qed.

Lemma rest_drop (us : list value) : rest us = drop 3 us.
Proof.
  unfold rest, slice. simpl.
  destruct (Nat.le_gt_cases 3 (length us)) as [Hlong|Hshort].
  - replace (Z.to_nat (Z.min 3 _)) with 3%nat by lia.
    apply take_ge. rewrite length_drop. lia.
  - replace (Z.to_nat (Z.min 3 _)) with (length us) by lia.
    rewrite !drop_ge by lia. now rewrite take_nil.
Qed.

Lemma rmap_Forall2 {A B} (f : A -> result B) (l : list A) (ys : list B) :
  rmap f l = Ok ys -> Forall2 (fun x y => f x = Ok y) l ys.
Proof.
  revert ys. induction l as [|x l IH]; simpl; intros ys H.
  - injection H as <-. constructor.
  - destruct (f x) as [y|] eqn:Hx; simpl in H; [|discriminate].
    destruct (rmap f l) as [ys'|]; simpl in H; [|discriminate].
    injection H as <-. constructor; [assumption|]. now apply IH.
Qed.

Lemma Forall_rmap {A B} (f : A -> result B) (l : list A) :
  Forall (fun x => exists y, f x = Ok y) l -> exists ys, rmap f l = Ok ys.
Proof.
  induction 1 as [|x l [y Hy] _ [ys IH]]; simpl.
  - now exists [].
  - rewrite Hy, IH. simpl. now exists (y :: ys).
Qed.

Lemma rmapi_lookup {A B} (f : nat -> A -> result B) (l : list A) :
  forall (k : nat) (ys : list B),
    rmapi f k l = Ok ys ->
    length ys = length l /\
    forall i y, ys !! i = Some y ->
      exists x, l !! i = Some x /\ f (k + i)%nat x = Ok y.
Proof.
  induction l as [|x l IH]; simpl; intros k ys H.
  - injection H as <-. split; [reflexivity|]. intros i y Hi.
    now rewrite lookup_nil in Hi.
  - destruct (f k x) as [y0|] eqn:Hx; simpl in H; [|discriminate].
    destruct (rmapi f (S k) l) as [ys'|] eqn:Hl; simpl in H; [|discriminate].
    injection H as <-. destruct (IH _ _ Hl) as [Hlen Hlook].
    split; [simpl; now rewrite Hlen|].
    intros [|i] y Hi; simpl in Hi.
    + injection Hi as <-. exists x. split; [reflexivity|].
      now rewrite Nat.add_0_r.
    + destruct (Hlook _ _ Hi) as (x' & Hx' & Hf). exists x'.
      split; [exact Hx'|]. now rewrite Nat.add_succ_r.
Qed.

(** C9: the podium and the remaining list split the user list exactly:
    the podium takes the first min(3, length) users, the remaining list
    all users from index 3 on, in order, and one after the other they are
    the user list; when the two sections render, the podium has one card
    per podium user and the list one row per remaining user, each the
    rendering of the user at that position. *)
Theorem podium_rest_partition
    (toUpperCase : jsstring -> jsstring) (us : list value) :
  topThree us = take 3 us
  /\ length (topThree us) = Nat.min 3 (length us)
  /\ rest us = drop 3 us
  /\ topThree us ++ rest us = us
  /\ match render_podium toUpperCase us, render_rest toUpperCase us with
     | Ok cards, Ok rows =>
         (length cards + length rows)%nat = length us
         /\ (forall i c, cards !! i = Some c ->
               exists u, us !! i = Some u /\
                 render_podium_card toUpperCase us i u = Ok c)
         /\ Forall2 (fun u r => render_list_row toUpperCase us u = Ok r)
              (drop 3 us) rows
     | _, _ => True
     end.
Proof.
  rewrite topThree_take, rest_drop.
  repeat split.
  - rewrite length_take. lia.
  - apply take_drop.
  - unfold render_podium, render_rest.
    rewrite topThree_take, rest_drop.
    destruct (rmapi _ _ _) as [cards|] eqn:Hc; [|exact I].
    destruct (rmap _ _) as [rows|] eqn:Hr; [|exact I].
    apply rmapi_lookup in Hc as [Hlen Hlook].
    apply rmap_Forall2 in Hr.
    split; [|split].
    + rewrite Hlen, <- (Forall2_length _ _ _ Hr).
      rewrite <- length_app, take_drop. reflexivity.
    + intros i c Hi. destruct (Hlook _ _ Hi) as (u & Hu & Hf).
      exists u. split; [|exact Hf].
      apply lookup_take_Some in Hu. tauto.
    + exact Hr.
Qed.

(** ** Rank *)

Lemma parse_elems_lookup (p : oid) (l : list json) :
  forall (k i : nat) (u : value),
    parse_elems p k l !! i = Some u ->
    exists x, l !! i = Some x /\ u = parse ((k + i)%nat :: p) x.
Proof.
  induction l as [|x l IH]; intros k i u H; simpl in H.
  - now rewrite lookup_nil in H.
  - destruct i as [|i]; simpl in H.
    + injection H as <-. exists x. now rewrite Nat.add_0_r.
    + destruct (IH _ _ _ H) as (x' & Hx' & ->). exists x'.
      split; [exact Hx'|]. now rewrite Nat.add_succ_r.
Qed.

(** A deserialised value that is an object sits at its own path. *)
Lemma parse_VObj_oid (q o : oid) (x : json) (fs : list (jsstring * value)) :
  parse q x = VObj o fs -> o = q.
Proof.
  destruct x; simpl; try discriminate. intros H. now injection H.
Qed.

Lemma strict_eq_other_path (q o : oid) (x : json)
    (fs : list (jsstring * value)) :
  o <> q -> strict_eq (parse q x) (VObj o fs) = false.
Proof.
  intros Hne. destruct x; simpl; try reflexivity.
  apply bool_decide_eq_false. congruence.
Qed.

Lemma indexOf_from_parse_elems (p : oid) (l : list json) :
  forall (k i : nat) (z : Z) (o : oid) (fs : list (jsstring * value)),
    parse_elems p k l !! i = Some (VObj o fs) ->
    indexOf_from z (parse_elems p k l) (VObj o fs) = z + Z.of_nat i.
Proof.
  induction l as [|x l IH]; intros k i z o fs H; simpl in H.
  - now rewrite lookup_nil in H.
  - destruct i as [|i]; simpl in H.
    + injection H as H. simpl. rewrite H. simpl.
      rewrite bool_decide_eq_true_2 by reflexivity. lia.
    + simpl.
      destruct (parse_elems_lookup _ _ _ _ _ H) as (x' & _ & Hu).
      symmetry in Hu. apply parse_VObj_oid in Hu.
      rewrite strict_eq_other_path.
      * rewrite (IH _ _ _ _ _ H). lia.
      * rewrite Hu. intros E. injection E. lia.
Qed.

(** The rank of an object of a deserialised array is its position plus
    one, whatever the other elements are. *)
Lemma rank_parse_elems (p : oid) (l : list json) (i : nat) (o : oid)
    (fs : list (jsstring * value)) :
  parse_elems p 0 l !! i = Some (VObj o fs) ->
  rank (parse_elems p 0 l) (VObj o fs) = Z.of_nat i + 1.
Proof.
  intros H. unfold rank, indexOf.
  rewrite (indexOf_from_parse_elems _ _ _ _ _ _ _ H). lia.
Qed.

Ltac rbind_inv H :=
  repeat match type of H with
         | rbind ?r _ = Ok _ =>
             let E := fresh "E" in
             destruct r eqn:E; simpl in H; [|discriminate H]
         end.

Section Rendering.

Variable toUpperCase : jsstring -> jsstring.

(** An avatar is only rendered for an object: on anything else
    [user.username] is undefined (or the access throws) and the indexing
    fails. *)
Lemma avatar_initial_object (u : value) (s : jsstring) :
  avatar_initial toUpperCase u = Ok s -> exists o fs, u = VObj o fs.
Proof.
  unfold avatar_initial. intros H.
  destruct u; simpl in H; try discriminate H. eauto.
Qed.

Lemma render_podium_card_rank (us : list value) (i : nat) (u : value)
    (c : podium_card) :
  render_podium_card toUpperCase us i u = Ok c ->
  pc_rank c = rank us u /\ pc_border c = borderColor (rank us u) /\
  exists o fs, u = VObj o fs.
Proof.
  unfold render_podium_card. intros H. rbind_inv H.
  injection H as <-. simpl. repeat split.
  eapply avatar_initial_object; eassumption.
Qed.

Lemma render_list_row_rank (us : list value) (u : value) (r : list_row) :
  render_list_row toUpperCase us u = Ok r ->
  lr_rank r = rank us u /\ exists o fs, u = VObj o fs.
Proof.
  unfold render_list_row. intros H. rbind_inv H.
  injection H as <-. simpl. split; [reflexivity|].
  eapply avatar_initial_object; eassumption.
Qed.

(** C4: the rank shown for a participant is computed from the list at
    render time and is its position in the list plus one.  For the user
    list deserialised from any snapshot: the rank of the participant
    object at index [i] is [i + 1]; card [i] of the podium shows rank
    [i + 1], with the border colour of that rank; row [i] of the
    remaining list shows rank [3 + i + 1]. *)
Theorem displayed_rank_is_position
    (snapshot : list json) (o : oid) (us : list value) :
  deserialize (JArr snapshot) = VArr o us ->
  (forall i o' fs, us !! i = Some (VObj o' fs) ->
     rank us (VObj o' fs) = Z.of_nat i + 1)
  /\ (forall cards i c,
        render_podium toUpperCase us = Ok cards -> cards !! i = Some c ->
        pc_rank c = Z.of_nat i + 1
        /\ pc_border c = borderColor (Z.of_nat i + 1))
  /\ (forall rows i r,
        render_rest toUpperCase us = Ok rows -> rows !! i = Some r ->
        lr_rank r = Z.of_nat (3 + i) + 1).
Proof.
  unfold deserialize. rewrite parse_JArr. intros H. injection H as _ <-.
  split; [|split].
  - intros i o' fs Hi. now apply rank_parse_elems.
  - intros cards i c Hr Hi. unfold render_podium in Hr.
    apply rmapi_lookup in Hr as [_ Hlook].
    destruct (Hlook _ _ Hi) as (u & Hu & Hc). simpl in Hc.
    rewrite topThree_take in Hu. apply lookup_take_Some in Hu as [Hu _].
    apply render_podium_card_rank in Hc as (-> & -> & o' & fs & ->).
    now rewrite (rank_parse_elems _ _ _ _ _ Hu).
  - intros rows i r Hr Hi. unfold render_rest in Hr.
    apply rmap_Forall2 in Hr. rewrite rest_drop in Hr.
    destruct (Forall2_lookup_r _ _ _ _ _ Hr Hi) as (u & Hu & Hrow).
    rewrite lookup_drop in Hu.
    apply render_list_row_rank in Hrow as (-> & o' & fs & ->).
    now rewrite (rank_parse_elems _ _ _ _ _ Hu).
Qed.

End Rendering.

Lemma displayed_rank_is_position_witness :
  let ann := JObj [(lit "username", JStr (lit "ann"))] in
  let us := parse_elems [] 0 [ann; ann] in
  deserialize (JArr [ann; ann]) = VArr [] us
  /\ rank us (VObj [1%nat] [(lit "username", VStr (lit "ann"))]) = 2.
Proof.
  assert (H : deserialize
                (JArr [JObj [(lit "username", JStr (lit "ann"))];
                       JObj [(lit "username", JStr (lit "ann"))]])
              = VArr []
                  (parse_elems [] 0
                     [JObj [(lit "username", JStr (lit "ann"))];
                      JObj [(lit "username", JStr (lit "ann"))]])).
  { reflexivity. }
  split; [exact H|].
  exact (proj1 (displayed_rank_is_position (fun x => x) _ _ _ H)
           1%nat [1%nat] [(lit "username", VStr (lit "ann"))] eq_refl).
Defined.

(** ** Avatar initials *)

(** C8: when every participant of the list has a non-empty string as
    display name, the avatar initial of every entry of the podium and of
    the remaining list is rendered without failure: [username[0]] is the
    first character of the name and the initial is that character
    upper-cased. *)
Theorem avatar_initial_total
    (toUpperCase : jsstring -> jsstring) (us : list value) :
  Forall (fun u => has_display_name u = true) us ->
  Forall (fun u => exists c s,
            get_prop u Pusername = Ok (VStr (c :: s))
            /\ get_index0 (VStr (c :: s)) = Ok (VStr [c])
            /\ avatar_initial toUpperCase u = Ok (toUpperCase [c]))
    (topThree us ++ rest us).
Proof.
  rewrite topThree_take, rest_drop, take_drop. intros H.
  eapply Forall_impl; [exact H|]. clear H. intros u Hu.
  destruct u as [| | | | | |o fs]; try discriminate Hu.
  unfold has_display_name, get_prop_opt in Hu. unfold avatar_initial.
  destruct (get_prop (VObj o fs) Pusername) as [name|] eqn:E;
    [|discriminate Hu].
  destruct name as [| | | |[|c s]| |]; try discriminate Hu.
  exists c, s. repeat split.
Qed.

Lemma avatar_initial_total_witness :
  let us := [VObj [0%nat] [(lit "username", VStr (lit "ann"))]] in
  Forall (fun u => has_display_name u = true) us /\
  Forall (fun u => exists c s,
            get_prop u Pusername = Ok (VStr (c :: s))
            /\ get_index0 (VStr (c :: s)) = Ok (VStr [c])
            /\ avatar_initial (fun x => x) u = Ok [c])
    (topThree us ++ rest us).
Proof.
  assert (H : Forall (fun u => has_display_name u = true)
                [VObj [0%nat] [(lit "username", VStr (lit "ann"))]]).
  { repeat constructor. }
  split; [exact H|].
  exact (avatar_initial_total (fun x => x) _ H).
Defined.

(** Without the precondition the indexing does fail: on an empty name
    [username[0]] is undefined and the method call throws. *)
Lemma avatar_initial_empty_name (toUpperCase : jsstring -> jsstring) :
  avatar_initial toUpperCase (VObj [0%nat] [(lit "username", VStr [])])
  = Throw TypeError.
Proof. reflexivity. Qed.

(** ** Claim history *)

Lemma scalar_child_text (v : value) :
  scalar v = true -> exists t, child_text v = Ok t.
Proof. destruct v; simpl; try discriminate; eauto. Qed.

Lemma scalar_react_key (v : value) :
  scalar v = true -> exists k, react_key v = Ok k.
Proof. destruct v; simpl; try discriminate; eauto. Qed.

Section History.

Variable Date_parse : jsstring -> option Z.
Variable format_valid : Z -> jsstring -> jsstring.

Lemma render_claim_total (claim : value) :
  claim_record Date_parse claim = true ->
  exists row, row_of_claim Date_parse format_valid claim row.
Proof.
  intros Hwf. destruct claim as [| | | | | |o fs]; try discriminate Hwf.
  unfold claim_record in Hwf.
  apply andb_prop in Hwf as [Hwf Hts]. apply andb_prop in Hwf as [Hwf Hpts].
  apply andb_prop in Hwf as [Hid Href].
  unfold row_of_claim, render_claim, get_prop_opt in *.
  destruct (get_prop (VObj o fs) P_id) as [id|] eqn:Eid; [|discriminate].
  destruct (get_prop (VObj o fs) PuserId) as [ref|] eqn:Eref;
    [|discriminate].
  destruct (get_prop (VObj o fs) PpointsClaimed) as [pts|] eqn:Epts;
    [|discriminate].
  destruct (get_prop (VObj o fs) Ptimestamp) as [ts|] eqn:Ets;
    [|discriminate].
  simpl.
  destruct (scalar_react_key _ Hid) as [key ->]. simpl.
  destruct (scalar_child_text _ Hpts) as [ptext ->].
  assert (Hname : exists name,
            child_text (js_or match get_prop ref Pusername with
                              | Ok x => x
                              | Throw _ => VUndefined
                              end (VStr (lit "Unknown User"))) = Ok name
            /\ (truthy match get_prop ref Pusername with
                       | Ok x => x
                       | Throw _ => VUndefined
                       end = false -> name = lit "Unknown User")).
  { unfold js_or.
    destruct (truthy match get_prop ref Pusername with
                     | Ok x => x
                     | Throw _ => VUndefined
                     end) eqn:Et.
    - assert (Hs : scalar match get_prop ref Pusername with
                          | Ok x => x
                          | Throw _ => VUndefined
                          end = true).
      { destruct ref; simpl in *; try reflexivity; try discriminate.
        exact Href. }
      destruct (scalar_child_text _ Hs) as [name Hn]. exists name.
      split; [exact Hn|discriminate].
    - eexists. split; [reflexivity|reflexivity]. }
  destruct Hname as (name & -> & Hunknown). simpl.
  unfold timestamp_field in Hts.
  destruct (truthy ts) eqn:Et; simpl in Hts.
  - destruct ts; try discriminate Hts; simpl.
    + apply bool_decide_eq_true in Hts as [t ->]. simpl.
      eexists. split; [reflexivity|]. simpl. split; [exact Hunknown|].
      discriminate.
    + apply bool_decide_eq_true in Hts as [t ->]. simpl.
      eexists. split; [reflexivity|]. simpl. split; [exact Hunknown|].
      discriminate.
  - eexists. split; [reflexivity|]. simpl. split; [exact Hunknown|].
    reflexivity.
Qed.

(** C10: the claim-history section renders for every list of claim
    records, also when a record lacks its participant or its timestamp:
    an empty history gives the message "No claims recorded yet." and no
    row; otherwise there is one row per record, with the name
    "Unknown User" where no participant name resolves and the time "N/A"
    where there is no timestamp. *)
Theorem render_history_total (o : oid) (claims : list value) :
  Forall (fun c => claim_record Date_parse c = true) claims ->
  exists view,
    render_history Date_parse format_valid (VArr o claims) = Ok view
    /\ match claims with
       | [] => view = NoClaims (lit "No claims recorded yet.")
       | _ => exists rows,
                view = ClaimRows rows
                /\ Forall2 (row_of_claim Date_parse format_valid) claims rows
       end.
Proof.
  intros Hwf. unfold render_history. simpl.
  destruct claims as [|c claims]; simpl.
  - eexists. split; reflexivity.
  - assert (H : exists rows,
              rmap (render_claim Date_parse format_valid) (c :: claims)
              = Ok rows
              /\ Forall2 (row_of_claim Date_parse format_valid)
                   (c :: claims) rows).
    { clear o. induction Hwf as [|x l Hx _ (rows & Hr & Hrows)].
      - exists []. split; [reflexivity|constructor].
      - destruct (render_claim_total _ Hx) as [row Hrow].
        exists (row :: rows). split.
        + simpl. rewrite (proj1 Hrow), Hr. reflexivity.
        + now constructor. }
    destruct H as (rows & Hr & Hrows). simpl in Hr.
    replace (Z.pos (Pos.of_succ_nat (length claims)) =? 0) with false
      by reflexivity.
    rewrite Hr. simpl. eauto.
Qed.

End History.

Lemma render_history_total_witness :
  let Date_parse := fun _ : jsstring => @None Z in
  let format_valid := fun (t : Z) (_ : jsstring) => decimal t in
  let claims := [VObj [0%nat] [];
                 VObj [1%nat] [(lit "timestamp", VNum 1700000000000)]] in
  Forall (fun c => claim_record Date_parse c = true) claims
  /\ exists view,
       render_history Date_parse format_valid (VArr [] claims) = Ok view
       /\ exists rows,
            view = ClaimRows rows
            /\ Forall2 (row_of_claim Date_parse format_valid) claims rows.
Proof.
  assert (H : Forall (fun c => claim_record (fun _ => None) c = true)
                [VObj [0%nat] [];
                 VObj [1%nat] [(lit "timestamp", VNum 1700000000000)]]).
  { repeat constructor. }
  split; [exact H|].
  exact (render_history_total (fun _ => None) (fun t _ => decimal t) [] _ H).
Defined.

(** Outside the data model the section can fail: a timestamp that is
    present but is not a date makes [format] throw. *)
Lemma render_claim_invalid_date
    (Date_parse : jsstring -> option Z)
    (format_valid : Z -> jsstring -> jsstring) (c : N) (s : jsstring) :
  Date_parse (c :: s) = None ->
  render_claim Date_parse format_valid
    (VObj [0%nat] [(lit "timestamp", VStr (c :: s))]) = Throw RangeError.
Proof. intros H. unfold render_claim. simpl. now rewrite H. Qed.

(** The client keeps the history in the order the server sent it: the
    response replaces the state variable as it is; a failed request only
    writes to the console. *)
Lemma fetchClaimHistory_run
    (API_BASE_URL : option jsstring) (net : network) (s : state)
    (t : list effect) :
  fetchClaimHistory API_BASE_URL net s t =
  match net (GET (endpoint API_BASE_URL "/claims/history")) with
  | Resolved data =>
      (Ok tt, setClaimHistory (deserialize data) s,
       t ++ [Request (GET (endpoint API_BASE_URL "/claims/history"))])
  | Rejected _ =>
      (Ok tt, s,
       (t ++ [Request (GET (endpoint API_BASE_URL "/claims/history"))])
       ++ [ConsoleError])
  end.
Proof.
  unfold fetchClaimHistory, try_catch, try_catch_finally, bind, axios.
  destruct (net _); reflexivity.
Qed.

(** * More properties of the client *)

(** ** Registration, past the guard *)

Lemma blank_or_not (s : jsstring) :
  Forall (fun c => is_white_space c = true) s
  \/ Exists (fun c => is_white_space c = false) s.
Proof.
  induction s as [|c s [IH|IH]].
  - left. constructor.
  - destruct (is_white_space c) eqn:E.
    + left. now constructor.
    + right. now constructor.
  - right. now constructor 2.
Qed.

(** What [handleAddUser] does with a name that is not blank, by the
    answer of the server. *)
Lemma handleAddUser_run
    (API_BASE_URL : option jsstring) (r s : state) (net : network)
    (t : list effect) :
  Exists (fun c => is_white_space c = false) (newUserName r) ->
  let req := POST (endpoint API_BASE_URL "/users")
               [(lit "username", VStr (newUserName r))] in
  let failed (e : exn) :=
    (Ok tt,
     mkState (users s) (selectedUserId s) (newUserName s) (message s) false
       (js_or (error_message e) (VStr (lit "Failed to add user.")))
       (claimHistory s),
     t ++ [Request req]) in
  handleAddUser API_BASE_URL r net s t =
  match net req with
  | Resolved d =>
      match get_prop (deserialize d) Pusername with
      | Ok name =>
          match to_string name with
          | Ok text =>
              (Ok tt,
               mkState (users s) (selectedUserId s) []
                 (VStr (lit "Added " ++ [34%N] ++ text ++ [34%N] ++ lit "!"))
                 false (VStr []) (claimHistory s),
               t ++ [Request req])
          | Throw e => failed e
          end
      | Throw e => failed e
      end
  | Rejected resp => failed (AxiosError (deserialize <$> resp))
  end.
Proof.
  intros H. apply trim_not_blank in H. simpl.
  unfold handleAddUser. destruct (trim (newUserName r)) as [|c u] eqn:E;
    [contradiction|clear H E]. simpl.
  unfold bind, try_catch_finally, update, axios, lift. simpl.
  destruct (net _) as [d|resp]; simpl; [|reflexivity].
  destruct (get_prop (deserialize d) Pusername) as [name|e]; simpl;
    [|reflexivity].
  destruct (to_string name); reflexivity.
Qed.

(** X1: [handleAddUser] sends a request exactly when the entered name has
    a character that is not white space: the trace of effects is left as
    it was if and only if the name is empty or all white space. *)
Theorem handleAddUser_guard_exact
    (API_BASE_URL : option jsstring) (r s : state) (net : network)
    (t : list effect) :
  snd (handleAddUser API_BASE_URL r net s t) = t
  <-> Forall (fun c => is_white_space c = true) (newUserName r).
Proof.
  split.
  - intros Ht. destruct (blank_or_not (newUserName r)) as [H|H]; [exact H|].
    exfalso. rewrite (handleAddUser_run _ _ _ _ _ H) in Ht.
    assert (Hlen : forall x : result unit * state * list effect,
              snd x = t -> length (snd x) = length t) by (intros x ->; easy).
    apply Hlen in Ht. revert Ht.
    destruct (net _) as [d|resp];
      [destruct (get_prop (deserialize d) Pusername) as [name|e];
       [destruct (to_string name)|]|];
      simpl; rewrite length_app; simpl; lia.
  - intros H. unfold handleAddUser. now rewrite (trim_blank _ H).
Qed.

(** X2: whatever the server answers, [handleAddUser] ends normally,
    leaves the user list, the claim history and the selection alone (a new
    user only ever shows up through a pushed or fetched snapshot), sends
    at most the one POST with the name as entered, untrimmed, and once the
    request is out leaves [loading] false. *)
Theorem handleAddUser_local_effects
    (API_BASE_URL : option jsstring) (r s : state) (net : network)
    (t : list effect) :
  let out := handleAddUser API_BASE_URL r net s t in
  fst (fst out) = Ok tt
  /\ users (snd (fst out)) = users s
  /\ claimHistory (snd (fst out)) = claimHistory s
  /\ selectedUserId (snd (fst out)) = selectedUserId s
  /\ (snd out = t
      \/ snd out = t ++ [Request (POST (endpoint API_BASE_URL "/users")
                                    [(lit "username", VStr (newUserName r))])]
         /\ loading (snd (fst out)) = false).
Proof.
  simpl. destruct (blank_or_not (newUserName r)) as [H|H].
  - unfold handleAddUser. rewrite (trim_blank _ H). simpl. tauto.
  - rewrite (handleAddUser_run _ _ _ _ _ H).
    destruct (net _) as [d|resp];
      [destruct (get_prop (deserialize d) Pusername) as [name|e];
       [destruct (to_string name)|]|];
      simpl; tauto.
Qed.



(** X4: when the server rejects the registration, the error shown is the
    [message] of the error body when that is truthy and
    "Failed to add user." otherwise, so it is never blank; the entered
    name stays in the input field and the message is not touched. *)
Theorem handleAddUser_rejected
    (API_BASE_URL : option jsstring) (r s : state) (net : network)
    (t : list effect) (resp : option json) :
  Exists (fun c => is_white_space c = false) (newUserName r) ->
  net (POST (endpoint API_BASE_URL "/users")
         [(lit "username", VStr (newUserName r))]) = Rejected resp ->
  let shown :=
    js_or match resp with
          | Some body => get_prop_opt (deserialize body) Pmessage
          | None => VUndefined
          end (VStr (lit "Failed to add user.")) in
  handleAddUser API_BASE_URL r net s t =
    (Ok tt,
     mkState (users s) (selectedUserId s) (newUserName s) (message s) false
       shown (claimHistory s),
     t ++ [Request (POST (endpoint API_BASE_URL "/users")
                      [(lit "username", VStr (newUserName r))])])
  /\ truthy shown = true.
Proof.
  intros H Hnet. simpl. split.
  - rewrite (handleAddUser_run _ _ _ _ _ H). simpl. rewrite Hnet.
    destruct resp; reflexivity.
  - unfold js_or.
    destruct (truthy match resp with
                     | Some body => get_prop_opt (deserialize body) Pmessage
                     | None => VUndefined
                     end) eqn:E; [exact E|reflexivity].
Qed.

Lemma handleAddUser_rejected_witness :
  let r := setNewUserName (lit "bob") initial_state in
  let net := fun _ : request =>
               Rejected (Some (JObj [(lit "message", JStr (lit "taken"))])) in
  handleAddUser None r net r [] =
    (Ok tt, setError (VStr (lit "taken")) r,
     [Request (POST (lit "undefined/users")
                 [(lit "username", VStr (lit "bob"))])]).
Proof.
  assert (H : Exists (fun c => is_white_space c = false)
                (newUserName (setNewUserName (lit "bob") initial_state))).
  { constructor. reflexivity. }
  exact (proj1 (handleAddUser_rejected None
                  (setNewUserName (lit "bob") initial_state)
                  (setNewUserName (lit "bob") initial_state)
                  (fun _ => Rejected
                              (Some (JObj [(lit "message", JStr (lit "taken"))])))
                  [] _ H eq_refl)).
Defined.

(** X5: a 2xx answer the handler cannot use counts as a failure: when the
    body is [null] (reading [username] throws) or the [username] has no
    string conversion, the exception is caught, the error shown is
    "Failed to add user.", the input field keeps the name and no message
    is set. *)
Theorem handleAddUser_unusable_response
    (API_BASE_URL : option jsstring) (r s : state) (net : network)
    (t : list effect) (d : json) :
  Exists (fun c => is_white_space c = false) (newUserName r) ->
  net (POST (endpoint API_BASE_URL "/users")
         [(lit "username", VStr (newUserName r))]) = Resolved d ->
  rbind (get_prop (deserialize d) Pusername) to_string = Throw TypeError ->
  handleAddUser API_BASE_URL r net s t =
    (Ok tt,
     mkState (users s) (selectedUserId s) (newUserName s) (message s) false
       (VStr (lit "Failed to add user.")) (claimHistory s),
     t ++ [Request (POST (endpoint API_BASE_URL "/users")
                      [(lit "username", VStr (newUserName r))])]).
Proof.
  intros H Hnet Hthrow.
  rewrite (handleAddUser_run _ _ _ _ _ H). simpl. rewrite Hnet.
  destruct (get_prop (deserialize d) Pusername) as [name|e]; simpl in Hthrow.
  - rewrite Hthrow. reflexivity.
  - injection Hthrow as ->. reflexivity.
Qed.

Lemma handleAddUser_unusable_response_witness :
  let r := setNewUserName (lit "bob") initial_state in
  handleAddUser None r (fun _ => Resolved JNull) r [] =
    (Ok tt, setError (VStr (lit "Failed to add user.")) r,
     [Request (POST (lit "undefined/users")
                 [(lit "username", VStr (lit "bob"))])]).
Proof.
  assert (H : Exists (fun c => is_white_space c = false)
                (newUserName (setNewUserName (lit "bob") initial_state))).
  { constructor. reflexivity. }
  exact (handleAddUser_unusable_response None
           (setNewUserName (lit "bob") initial_state)
           (setNewUserName (lit "bob") initial_state)
           (fun _ => Resolved JNull) [] JNull H eq_refl eq_refl).
Defined.

(** ** Claiming, past the guard *)

(** What [handleClaimPoints] does with a selection, by the answers of the
    server to the claim and to the history request that follows it. *)
Lemma handleClaimPoints_run
    (API_BASE_URL : option jsstring) (r s : state) (net : network)
    (t : list effect) :
  truthy (selectedUserId r) = true ->
  let req := POST (endpoint API_BASE_URL "/claims")
               [(lit "userId", selectedUserId r)] in
  let hreq := GET (endpoint API_BASE_URL "/claims/history") in
  let failed (e : exn) :=
    (Ok tt,
     mkState (users s) (selectedUserId s) (newUserName s) (message s) false
       (js_or (error_message e) (VStr (lit "Failed to claim points.")))
       (claimHistory s),
     t ++ [Request req]) in
  handleClaimPoints API_BASE_URL r net s t =
  match net req with
  | Resolved d =>
      match get_prop (deserialize d) Pmessage with
      | Ok msg =>
          match net hreq with
          | Resolved h =>
              (Ok tt,
               mkState (users s) (selectedUserId s) (newUserName s) msg
                 false (VStr []) (deserialize h),
               (t ++ [Request req]) ++ [Request hreq])
          | Rejected _ =>
              (Ok tt,
               mkState (users s) (selectedUserId s) (newUserName s) msg
                 false (VStr []) (claimHistory s),
               ((t ++ [Request req]) ++ [Request hreq]) ++ [ConsoleError])
          end
      | Throw e => failed e
      end
  | Rejected resp => failed (AxiosError (deserialize <$> resp))
  end.
Proof.
  intros Hsel. simpl. unfold handleClaimPoints. rewrite Hsel. simpl.
  unfold bind, try_catch_finally, update, axios, lift. simpl.
  destruct (net (POST _ _)) as [d|resp]; simpl; [|reflexivity].
  destruct (get_prop (deserialize d) Pmessage) as [msg|e]; simpl;
    [|reflexivity].
  rewrite fetchClaimHistory_run. destruct (net (GET _)); reflexivity.
Qed.

(** X6: whatever the server answers, [handleClaimPoints] ends normally
    and leaves the user list, the selection and the input field alone:
    the points a claim awards reach the list only through a pushed or
    fetched snapshot.  Either the guard stopped it before any effect, or
    the claim request went out first and [loading] is false at the end. *)
Theorem handleClaimPoints_local_effects
    (API_BASE_URL : option jsstring) (r s : state) (net : network)
    (t : list effect) :
  let out := handleClaimPoints API_BASE_URL r net s t in
  fst (fst out) = Ok tt
  /\ users (snd (fst out)) = users s
  /\ selectedUserId (snd (fst out)) = selectedUserId s
  /\ newUserName (snd (fst out)) = newUserName s
  /\ (snd out = t
      \/ (exists rest,
            snd out = t ++ Request (POST (endpoint API_BASE_URL "/claims")
                                      [(lit "userId", selectedUserId r)])
                           :: rest)
         /\ loading (snd (fst out)) = false).
Proof.
  simpl. destruct (truthy (selectedUserId r)) eqn:Hsel.
  - rewrite (handleClaimPoints_run _ _ _ _ _ Hsel).
    destruct (net (POST _ _)) as [d|resp];
      [destruct (get_prop (deserialize d) Pmessage) as [msg|e];
       [destruct (net (GET _))|]|];
      simpl; repeat split; right; (split; [|reflexivity]);
      rewrite <- ?app_assoc; simpl; eauto.
  - unfold handleClaimPoints. rewrite Hsel. simpl. tauto.
Qed.

(** X7: when the server accepts the claim for the selected identifier,
    the message becomes the [message] of the answer, the error is
    cleared, and the claim history is fetched again: the answer to that
    request replaces the history, and when that request fails the old
    history stays and only the console hears of it. *)
Theorem handleClaimPoints_success
    (API_BASE_URL : option jsstring) (r s : state) (net : network)
    (t : list effect) (d : json) (msg : value) :
  truthy (selectedUserId r) = true ->
  net (POST (endpoint API_BASE_URL "/claims")
         [(lit "userId", selectedUserId r)]) = Resolved d ->
  get_prop (deserialize d) Pmessage = Ok msg ->
  let out := handleClaimPoints API_BASE_URL r net s t in
  let hreq := GET (endpoint API_BASE_URL "/claims/history") in
  fst (fst out) = Ok tt
  /\ message (snd (fst out)) = msg
  /\ error (snd (fst out)) = VStr []
  /\ claimHistory (snd (fst out)) =
       match net hreq with
       | Resolved h => deserialize h
       | Rejected _ => claimHistory s
       end
  /\ snd out =
       t ++ [Request (POST (endpoint API_BASE_URL "/claims")
                        [(lit "userId", selectedUserId r)]);
             Request hreq]
         ++ match net hreq with
            | Resolved _ => []
            | Rejected _ => [ConsoleError]
            end.
Proof.
  intros Hsel Hnet Hmsg. simpl.
  rewrite (handleClaimPoints_run _ _ _ _ _ Hsel). simpl.
  rewrite Hnet, Hmsg.
  destruct (net (GET _)); simpl; rewrite <- ?app_assoc; simpl; tauto.
Qed.

Lemma handleClaimPoints_success_witness :
  let r := setSelectedUserId (VStr (lit "u1")) initial_state in
  let net := fun q : request =>
               match q with
               | POST _ _ => Resolved (JObj [(lit "message", JStr (lit "ok"))])
               | GET _ => Resolved (JArr [])
               end in
  message (snd (fst (handleClaimPoints None r net r []))) = VStr (lit "ok")
  /\ claimHistory (snd (fst (handleClaimPoints None r net r [])))
     = VArr [] [].
Proof.
  pose proof (handleClaimPoints_success None
                (setSelectedUserId (VStr (lit "u1")) initial_state)
                (setSelectedUserId (VStr (lit "u1")) initial_state)
                (fun q : request =>
                   match q with
                   | POST _ _ =>
                       Resolved (JObj [(lit "message", JStr (lit "ok"))])
                   | GET _ => Resolved (JArr [])
                   end)
                [] _ _ eq_refl eq_refl eq_refl) as H.
  exact (conj (proj1 (proj2 H)) (proj1 (proj2 (proj2 (proj2 H))))).
Defined.

(** X8: when the server refuses the claim, the claim request is the only
    request (the history is not fetched again), the error shown is the
    [message] of the error body when that is truthy and
    "Failed to claim points." otherwise, so it is never blank, and the
    message and the claim history stay as they were. *)
Theorem handleClaimPoints_refused
    (API_BASE_URL : option jsstring) (r s : state) (net : network)
    (t : list effect) (resp : option json) :
  truthy (selectedUserId r) = true ->
  net (POST (endpoint API_BASE_URL "/claims")
         [(lit "userId", selectedUserId r)]) = Rejected resp ->
  let shown :=
    js_or match resp with
          | Some body => get_prop_opt (deserialize body) Pmessage
          | None => VUndefined
          end (VStr (lit "Failed to claim points.")) in
  handleClaimPoints API_BASE_URL r net s t =
    (Ok tt,
     mkState (users s) (selectedUserId s) (newUserName s) (message s) false
       shown (claimHistory s),
     t ++ [Request (POST (endpoint API_BASE_URL "/claims")
                      [(lit "userId", selectedUserId r)])])
  /\ truthy shown = true.
Proof.
  intros Hsel Hnet. simpl. split.
  - rewrite (handleClaimPoints_run _ _ _ _ _ Hsel). simpl. rewrite Hnet.
    destruct resp; reflexivity.
  - unfold js_or.
    destruct (truthy match resp with
                     | Some body => get_prop_opt (deserialize body) Pmessage
                     | None => VUndefined
                     end) eqn:E; [exact E|reflexivity].
Qed.

Lemma handleClaimPoints_refused_witness :
  let r := setSelectedUserId (VStr (lit "gone")) initial_state in
  let net := fun _ : request => Rejected (Some (JObj [])) in
  handleClaimPoints None r net r [] =
    (Ok tt, setError (VStr (lit "Failed to claim points.")) r,
     [Request (POST (lit "undefined/claims")
                 [(lit "userId", VStr (lit "gone"))])]).
Proof.
  exact (proj1 (handleClaimPoints_refused None
                  (setSelectedUserId (VStr (lit "gone")) initial_state)
                  (setSelectedUserId (VStr (lit "gone")) initial_state)
                  (fun _ => Rejected (Some (JObj []))) [] _ eq_refl eq_refl)).
Defined.

(** ** The history request *)

Section HistoryResponse.

Variable API_BASE_URL : option jsstring.
Variable Date_parse : jsstring -> option Z.
Variable format_valid : Z -> jsstring -> jsstring.

(** X9: [fetchClaimHistory] never throws and never reports to the user:
    a rejected request changes no state variable at all (no error is
    set).  A 2xx body is stored unchecked, and when it is not an array the
    history section then either throws or shows the empty-history
    message, never rows. *)
Theorem fetchClaimHistory_outcomes
    (net : network) (s : state) (t : list effect) :
  let out := fetchClaimHistory API_BASE_URL net s t in
  fst (fst out) = Ok tt
  /\ match net (GET (endpoint API_BASE_URL "/claims/history")) with
     | Rejected _ => snd (fst out) = s
     | Resolved d =>
         snd (fst out) = setClaimHistory (deserialize d) s
         /\ ((forall l, d <> JArr l) ->
             forall rows,
               render_history Date_parse format_valid
                 (claimHistory (snd (fst out))) <> Ok (ClaimRows rows))
     end.
Proof.
  simpl. rewrite fetchClaimHistory_run.
  destruct (net _) as [d|resp]; simpl; [|tauto].
  repeat split. intros Hd rows.
  destruct d as [| b | z | str | l | fs]; simpl; try discriminate.
  - destruct str; simpl; discriminate.
  - now destruct (Hd l).
  - unfold render_history. simpl.
    destruct (strict_eq _ _); discriminate.
Qed.

End HistoryResponse.

(** ** The user list request *)

Section UsersResponse.

Variable API_BASE_URL : option jsstring.
Variable string_positive : jsstring -> bool.

(** What [fetchUsers] does, by the answer of the server. *)
Lemma fetchUsers_run (r s : state) (net : network) (t : list effect) :
  let req := GET (endpoint API_BASE_URL "/users") in
  let final (us sel err : value) :=
    (Ok tt,
     mkState us sel (newUserName s) (message s) false err (claimHistory s),
     t ++ [Request req]) in
  let failure := VStr (lit "Failed to fetch users.") in
  fetchUsers API_BASE_URL string_positive r net s t =
  match net req with
  | Rejected _ => final (users s) (selectedUserId s) failure
  | Resolved d =>
      let v := deserialize d in
      match get_length v with
      | Throw _ => final v (selectedUserId s) failure
      | Ok len =>
          match greater_than_zero string_positive len with
          | Throw _ => final v (selectedUserId s) failure
          | Ok pos =>
              if pos && negb (truthy (selectedUserId r)) then
                match get_index0 v with
                | Throw _ => final v (selectedUserId s) failure
                | Ok first =>
                    match get_prop first P_id with
                    | Throw _ => final v (selectedUserId s) failure
                    | Ok id => final v id (VStr [])
                    end
                end
              else final v (selectedUserId s) (VStr [])
          end
      end
  end.
Proof.
  simpl. unfold fetchUsers, bind, try_catch_finally, update, axios, lift, ret.
  simpl. destruct (net _) as [d|resp]; simpl; [|reflexivity].
  destruct (get_length (deserialize d)) as [len|e]; simpl; [|reflexivity].
  destruct (greater_than_zero string_positive len) as [pos|e]; simpl;
    [|reflexivity].
  destruct (pos && negb (truthy (selectedUserId r))); simpl; [|reflexivity].
  destruct (get_index0 (deserialize d)) as [first|e]; simpl; [|reflexivity].
  destruct (get_prop first P_id); reflexivity.
Qed.

(** X10: whatever the server answers, [fetchUsers] ends normally, sends
    exactly the one GET, leaves [loading] false, and leaves the claim
    history, the input field and the message alone. *)
Theorem fetchUsers_local_effects
    (r s : state) (net : network) (t : list effect) :
  let out := fetchUsers API_BASE_URL string_positive r net s t in
  fst (fst out) = Ok tt
  /\ snd out = t ++ [Request (GET (endpoint API_BASE_URL "/users"))]
  /\ loading (snd (fst out)) = false
  /\ claimHistory (snd (fst out)) = claimHistory s
  /\ newUserName (snd (fst out)) = newUserName s
  /\ message (snd (fst out)) = message s.
Proof.
  simpl. rewrite fetchUsers_run. simpl.
  destruct (net _) as [d|resp]; [|simpl; tauto].
  destruct (get_length (deserialize d)) as [len|e]; [|simpl; tauto].
  destruct (greater_than_zero string_positive len) as [pos|e];
    [|simpl; tauto].
  destruct (pos && negb (truthy (selectedUserId r))); [|simpl; tauto].
  destruct (get_index0 (deserialize d)) as [first|e]; [|simpl; tauto].
  destruct (get_prop first P_id); simpl; tauto.
Qed.

(** X11: when the render that started the fetch had no selection and the
    server answers with a non-empty array whose first element is not
    [null], the list is stored and the [_id] of its first element becomes
    the selection (undefined when the element has no [_id]); no error is
    shown. *)
Theorem fetchUsers_selects_first
    (r s : state) (net : network) (t : list effect) (x : json)
    (l : list json) :
  truthy (selectedUserId r) = false ->
  net (GET (endpoint API_BASE_URL "/users")) = Resolved (JArr (x :: l)) ->
  x <> JNull ->
  fetchUsers API_BASE_URL string_positive r net s t =
    (Ok tt,
     mkState (deserialize (JArr (x :: l)))
       (get_prop_opt (parse [0%nat] x) P_id)
       (newUserName s) (message s) false (VStr []) (claimHistory s),
     t ++ [Request (GET (endpoint API_BASE_URL "/users"))]).
Proof.
  intros Hsel Hnet Hx. rewrite fetchUsers_run. simpl. rewrite Hnet, Hsel.
  simpl. unfold get_prop_opt.
  destruct x; try reflexivity. now destruct Hx.
Qed.

(** X12: the selection is left alone when the render that started the
    fetch already had one, whatever the server answers, and when the
    server answers with the empty array. *)
Theorem fetchUsers_keeps_selection
    (r s : state) (net : network) (t : list effect) :
  truthy (selectedUserId r) = true
  \/ net (GET (endpoint API_BASE_URL "/users")) = Resolved (JArr []) ->
  selectedUserId
    (snd (fst (fetchUsers API_BASE_URL string_positive r net s t)))
  = selectedUserId s.
Proof.
  intros H. rewrite fetchUsers_run. simpl. destruct H as [Hsel|Hnet].
  - rewrite Hsel. destruct (net _) as [d|resp]; [|reflexivity].
    destruct (get_length (deserialize d)) as [len|e]; [|reflexivity].
    destruct (greater_than_zero string_positive len) as [pos|e];
      [|reflexivity].
    now rewrite andb_false_r.
  - rewrite Hnet. reflexivity.
Qed.

(** X13: when the request is rejected the error shown is always
    "Failed to fetch users.", whatever the error body says, and the list
    and the selection are kept. *)
Theorem fetchUsers_rejected
    (r s : state) (net : network) (t : list effect) (resp : option json) :
  net (GET (endpoint API_BASE_URL "/users")) = Rejected resp ->
  fetchUsers API_BASE_URL string_positive r net s t =
    (Ok tt,
     mkState (users s) (selectedUserId s) (newUserName s) (message s) false
       (VStr (lit "Failed to fetch users.")) (claimHistory s),
     t ++ [Request (GET (endpoint API_BASE_URL "/users"))]).
Proof. intros Hnet. rewrite fetchUsers_run. simpl. now rewrite Hnet. Qed.

(** X14: the body of a 2xx answer is stored before anything is checked:
    the user list becomes that body whatever it is, also when the checks
    that follow throw; and when the body is not an array the podium and
    the list can no longer be rendered. *)
Theorem fetchUsers_stores_unchecked
    (toUpperCase : jsstring -> jsstring)
    (r s : state) (net : network) (t : list effect) (d : json) :
  net (GET (endpoint API_BASE_URL "/users")) = Resolved d ->
  let after := snd (fst (fetchUsers API_BASE_URL string_positive r net s t)) in
  users after = deserialize d
  /\ ((forall l, d <> JArr l) ->
      render_board toUpperCase (users after) = Throw TypeError).
Proof.
  intros Hnet. simpl.
  assert (Hu : users (snd (fst (fetchUsers API_BASE_URL string_positive
                                  r net s t))) = deserialize d).
  { rewrite fetchUsers_run. simpl. rewrite Hnet.
    destruct (get_length (deserialize d)) as [len|e]; [|reflexivity].
    destruct (greater_than_zero string_positive len) as [pos|e];
      [|reflexivity].
    destruct (pos && negb (truthy (selectedUserId r))); [|reflexivity].
    destruct (get_index0 (deserialize d)) as [first|e]; [|reflexivity].
    destruct (get_prop first P_id); reflexivity. }
  split; [exact Hu|]. intros Hd. rewrite Hu.
  destruct d; try reflexivity. now destruct (Hd elems).
Qed.

End UsersResponse.

Lemma fetchUsers_selects_first_witness :
  let net := fun _ : request =>
               Resolved (JArr [JObj [(lit "_id", JStr (lit "u1"))]]) in
  selectedUserId
    (snd (fst (fetchUsers None (fun _ => false) initial_state net
                 initial_state []))) = VStr (lit "u1").
Proof.
  assert (H : JObj [(lit "_id", JStr (lit "u1"))] <> JNull) by discriminate.
  exact (f_equal (fun out : result unit * state * list effect =>
                    selectedUserId (snd (fst out)))
           (fetchUsers_selects_first None (fun _ => false) initial_state
              initial_state
              (fun _ => Resolved (JArr [JObj [(lit "_id", JStr (lit "u1"))]]))
              [] _ [] eq_refl eq_refl H)).
Defined.

Lemma fetchUsers_keeps_selection_witness :
  let s := setSelectedUserId (VStr (lit "u7")) initial_state in
  selectedUserId
    (snd (fst (fetchUsers None (fun _ => false) initial_state
                 (fun _ => Resolved (JArr [])) s []))) = VStr (lit "u7").
Proof.
  exact (fetchUsers_keeps_selection None (fun _ => false) initial_state
           (setSelectedUserId (VStr (lit "u7")) initial_state)
           (fun _ => Resolved (JArr [])) [] (or_intror eq_refl)).
Defined.

Lemma fetchUsers_rejected_witness :
  fetchUsers None (fun _ => false) initial_state
    (fun _ => Rejected (Some (JObj [(lit "message", JStr (lit "down"))])))
    initial_state []
  = (Ok tt, setError (VStr (lit "Failed to fetch users.")) initial_state,
     [Request (GET (lit "undefined/users"))]).
Proof.
  exact (fetchUsers_rejected None (fun _ => false) initial_state
           initial_state
           (fun _ => Rejected
                       (Some (JObj [(lit "message", JStr (lit "down"))])))
           [] _ eq_refl).
Defined.

Lemma fetchUsers_stores_unchecked_witness :
  let after := snd (fst (fetchUsers None (fun _ => false) initial_state
                           (fun _ => Resolved JNull) initial_state [])) in
  users after = VNull
  /\ error after = VStr (lit "Failed to fetch users.")
  /\ render_board (fun x => x) (users after) = Throw TypeError.
Proof.
  pose proof (fetchUsers_stores_unchecked None (fun _ => false)
                (fun x => x) initial_state initial_state
                (fun _ => Resolved JNull) [] JNull eq_refl) as [H1 H2].
  split; [exact H1|]. split; [reflexivity|].
  apply H2. discriminate.
Defined.

(** ** The podium and the list, card by card *)



Section Cards.

Variable toUpperCase : jsstring -> jsstring.

Lemma render_podium_card_class (us : list value) (i : nat) (u : value)
    (c : podium_card) :
  render_podium_card toUpperCase us i u = Ok c -> pc_class c = order_class i.
Proof.
  unfold render_podium_card. intros H. rbind_inv H. now injection H as <-.
Qed.

(** X15: the podium never has more than three cards, and its cards get
    the classes order-1, order-0 and order-2 in that order, which puts the
    first of the list in the middle; the class never falls off the end of
    the [orders] table. *)
Theorem podium_order_classes (us : list value) (cards : list podium_card) :
  render_podium toUpperCase us = Ok cards ->
  (length cards <= 3)%nat
  /\ forall i c, cards !! i = Some c ->
       [lit "order-1"; lit "order-0"; lit "order-2"] !! i
       = Some (pc_class c).
Proof.
  unfold render_podium. intros H.
  apply rmapi_lookup in H as [Hlen Hlook].
  assert (Hthree : (length cards <= 3)%nat).
  { rewrite Hlen, topThree_take, length_take. lia. }
  split; [exact Hthree|].
  intros i c Hi. destruct (Hlook _ _ Hi) as (u & _ & Hc). simpl in Hc.
  apply render_podium_card_class in Hc. rewrite Hc.
  apply lookup_lt_Some in Hi.
  destruct i as [|[|[|i]]]; try reflexivity. lia.
Qed.




End Cards.

Lemma podium_order_classes_witness :
  let ann := VObj [0%nat] [(lit "username", VStr (lit "ann"))] in
  exists cards,
    render_podium (fun x => x) [ann] = Ok cards
    /\ (length cards <= 3)%nat
    /\ forall i c, cards !! i = Some c ->
         [lit "order-1"; lit "order-0"; lit "order-2"] !! i
         = Some (pc_class c).
Proof.
  eexists. split; [reflexivity|].
  exact (podium_order_classes (fun x => x)
           [VObj [0%nat] [(lit "username", VStr (lit "ann"))]] _ eq_refl).
Defined.


(** ** A row of the claim history *)

Section ClaimRow.

Variable Date_parse : jsstring -> option Z.
Variable format_valid : Z -> jsstring -> jsstring.


End ClaimRow.


(** ** The avatar colour *)

Local Open Scope N_scope.

Lemma hex_digit_spec (d : N) :
  d < 16 ->
  (if hex_digit d <? 58 then hex_digit d - 48 else hex_digit d - 87) = d
  /\ is_hex_char (hex_digit d) = true.
Proof.
  intros Hd. unfold hex_digit, is_hex_char.
  destruct (N.ltb_spec d 10).
  - destruct (N.ltb_spec (48 + d) 58); [|lia]. split; [lia|].
    apply orb_true_iff. left. apply andb_true_iff.
    split; apply N.leb_le; lia.
  - destruct (N.ltb_spec (87 + d) 58); [lia|]. split; [lia|].
    apply orb_true_iff. right. apply andb_true_iff.
    split; apply N.leb_le; lia.
Qed.

Lemma hex_value_snoc (ds : jsstring) (c : N) :
  hex_value (ds ++ [c])
  = 16 * hex_value ds + (if c <? 58 then c - 48 else c - 87).
Proof. unfold hex_value. now rewrite fold_left_app. Qed.

Lemma hex_digits_spec (fuel : nat) :
  forall (n : N) (acc : jsstring) (k : nat),
    n < 16 ^ N.of_nat (S fuel) -> n < 16 ^ N.of_nat k -> (1 <= k)%nat ->
    exists ds,
      hex_digits (S fuel) n acc = ds ++ acc
      /\ hex_value ds = n
      /\ (1 <= length ds <= k)%nat
      /\ Forall (fun c => is_hex_char c = true) ds.
Proof.
  induction fuel as [|fuel IH]; intros n acc k Hfuel Hk Hk1.
  - assert (Hn : n < 16) by exact Hfuel.
    exists [hex_digit (n mod 16)]. simpl.
    rewrite N.div_small by exact Hn. simpl.
    rewrite N.mod_small by exact Hn.
    destruct (hex_digit_spec n Hn) as [Hv Hc].
    repeat split; [exact Hv|lia|lia|now constructor].
  - assert (Hmod : n mod 16 < 16) by (apply N.mod_lt; lia).
    destruct (hex_digit_spec _ Hmod) as [Hv Hc].
    cbn [hex_digits]. destruct (N.eqb_spec (n / 16) 0) as [Hz|Hnz].
    + exists [hex_digit (n mod 16)].
      assert (Hn : n = n mod 16).
      { rewrite (N.div_mod n 16) at 1 by lia. rewrite Hz. lia. }
      repeat split; [|simpl; lia|simpl; lia|now constructor].
      unfold hex_value. simpl. rewrite Hv. lia.
    + destruct k as [|[|k]]; [lia| |].
      { exfalso. apply Hnz. apply N.div_small. exact Hk. }
      destruct (IH (n / 16) (hex_digit (n mod 16) :: acc) (S k))
        as (ds & Hds & Hval & Hlen & Hall).
      * apply N.Div0.div_lt_upper_bound.
        rewrite <- N.pow_succ_r', <- Nat2N.inj_succ. exact Hfuel.
      * apply N.Div0.div_lt_upper_bound.
        rewrite <- N.pow_succ_r', <- Nat2N.inj_succ. exact Hk.
      * lia.
      * exists (ds ++ [hex_digit (n mod 16)]).
        rewrite <- app_assoc. simpl. split; [exact Hds|].
        rewrite hex_value_snoc, Hval, Hv, length_app. simpl.
        repeat split; [symmetry; apply N.div_mod; lia|lia|lia|].
        apply Forall_app. split; [exact Hall|now constructor].
Qed.

Lemma toString16_spec (n : N) (k : nat) :
  n < 16 ^ N.of_nat k -> (1 <= k)%nat ->
  hex_value (toString16 n) = n
  /\ (1 <= length (toString16 n) <= k)%nat
  /\ Forall (fun c => is_hex_char c = true) (toString16 n).
Proof.
  intros Hk Hk1. unfold toString16.
  destruct (hex_digits_spec (N.to_nat (N.log2 n)) n [] k)
    as (ds & Hds & Hrest); [|exact Hk|exact Hk1|].
  - rewrite Nat2N.inj_succ, N2Nat.id.
    destruct (N.eq_dec n 0) as [->|Hn]; [reflexivity|].
    apply N.lt_le_trans with (2 ^ N.succ (N.log2 n)).
    + apply N.log2_spec. lia.
    + apply N.pow_le_mono_l. lia.
  - rewrite Hds, app_nil_r. exact Hrest.
Qed.

Lemma padStart_zeros (s : jsstring) (m : nat) :
  padStart s m (lit "0") = repeat 48 (m - length s) ++ s.
Proof.
  unfold padStart. change (lit "0") with [48]. f_equal.
  generalize (m - length s)%nat. intros k.
  assert (H : concat (@repeat jsstring [48] k) = repeat 48 k).
  { induction k as [|k IH]; [reflexivity|].
    change (48 :: concat (@repeat jsstring [48] k) = 48 :: repeat 48 k).
    now rewrite IH. }
  rewrite H. apply take_ge. now rewrite repeat_length.
Qed.

Lemma hex_value_zeros (k : nat) (s : jsstring) :
  hex_value (repeat 48 k ++ s) = hex_value s.
Proof. induction k as [|k IH]; [reflexivity|exact IH]. Qed.

(** X18: for every draw [Math.floor(Math.random() * 16777215)] can give,
    [getRandomColor] returns a well-formed colour: "#" followed by exactly
    six lower-case hexadecimal digits that denote the draw, so different
    draws give different colours; and since the factor is 16777215 the
    colour is never "#ffffff". *)
Theorem getRandomColor_well_formed (draw : N) :
  draw <= 16777214 ->
  exists ds,
    getRandomColor draw = 35 :: ds
    /\ length ds = 6%nat
    /\ Forall (fun c => is_hex_char c = true) ds
    /\ hex_value ds = draw
    /\ getRandomColor draw <> lit "#ffffff".
Proof.
  intros Hdraw.
  destruct (toString16_spec draw 6) as (Hval & Hlen & Hall);
    [change (16 ^ N.of_nat 6) with 16777216; lia|lia|].
  assert (Hcol : getRandomColor draw
                 = 35 :: repeat 48 (6 - length (toString16 draw))
                         ++ toString16 draw).
  { unfold getRandomColor. now rewrite padStart_zeros. }
  exists (repeat 48 (6 - length (toString16 draw)) ++ toString16 draw).
  split; [exact Hcol|]. split; [|split; [|split]].
  - rewrite length_app, repeat_length. lia.
  - apply Forall_app. split; [|exact Hall].
    apply Forall_forall. intros c Hc. apply list_elem_of_In in Hc.
    apply repeat_spec in Hc. now subst c.
  - now rewrite hex_value_zeros.
  - rewrite Hcol. intros E. change (lit "#ffffff") with (35 :: lit "ffffff") in E.
    injection E as E. apply (f_equal hex_value) in E.
    rewrite hex_value_zeros, Hval in E.
    change (hex_value (lit "ffffff")) with 16777215 in E. lia.
Qed.

Lemma getRandomColor_well_formed_witness :
  255 <= 16777214
  /\ exists ds,
       getRandomColor 255 = 35 :: ds
       /\ length ds = 6%nat
       /\ Forall (fun c => is_hex_char c = true) ds
       /\ hex_value ds = 255
       /\ getRandomColor 255 <> lit "#ffffff".
Proof.
  assert (H : 255 <= 16777214) by (intros E; discriminate E).
  exact (conj H (getRandomColor_well_formed 255 H)).
Defined.

Local Close Scope N_scope.

(** * Properties of the engine *)

Import Engine.
Local Open Scope nat_scope.

(** ** Ranking order *)

Lemma rank_compare_Lt (a b : Participant) :
  rank_compare a b = Lt <-> ranks_before a b.
Proof.
  unfold rank_compare, ranks_before.
  destruct (N.compare_spec (totalPoints b) (totalPoints a)) as [E|L|G].
  - rewrite Nat.compare_lt_iff. lia.
  - split; [intros _; now left|reflexivity].
  - split; [discriminate|lia].
Qed.

Lemma rank_compare_Eq (a b : Participant) :
  rank_compare a b = Eq <->
  totalPoints a = totalPoints b /\ registered a = registered b.
Proof.
  unfold rank_compare.
  destruct (N.compare_spec (totalPoints b) (totalPoints a)) as [E|L|G].
  - rewrite Nat.compare_eq_iff. intuition congruence.
  - split; [discriminate|lia].
  - split; [discriminate|lia].
Qed.

Lemma rank_compare_Gt (a b : Participant) :
  rank_compare a b = Gt <-> ranks_before b a.
Proof.
  unfold rank_compare, ranks_before.
  destruct (N.compare_spec (totalPoints b) (totalPoints a)) as [E|L|G].
  - rewrite Nat.compare_gt_iff. lia.
  - split; [discriminate|lia].
  - split; [intros _; now left|reflexivity].
Qed.

Lemma ranks_le_spec (a b : Participant) :
  ranks_le a b <->
  (totalPoints b < totalPoints a)%N
  \/ (totalPoints a = totalPoints b /\ registered a <= registered b).
Proof.
  unfold ranks_le. rewrite rank_compare_Gt. unfold ranks_before. lia.
Qed.

#[local] Instance ranks_le_trans : Transitive ranks_le.
Proof. intros a b c. rewrite !ranks_le_spec. lia. Qed.

Lemma insert_ranked_perm (x : Participant) (l : list Participant) :
  insert_ranked x l ≡ₚ x :: l.
Proof.
  induction l as [|y l IH]; simpl; [reflexivity|].
  destruct (rank_compare x y); try reflexivity.
  rewrite IH. apply Permutation_swap.
Qed.

Lemma insert_ranked_sorted (x : Participant) (l : list Participant) :
  Sorted ranks_le l -> Sorted ranks_le (insert_ranked x l).
Proof.
  induction 1 as [|y l Hl IH Hhd]; simpl.
  - repeat constructor.
  - destruct (rank_compare x y) eqn:E.
    + repeat constructor; try assumption. unfold ranks_le. congruence.
    + repeat constructor; try assumption. unfold ranks_le. congruence.
    + constructor; [exact IH|].
      assert (Hyx : ranks_le y x).
      { apply ranks_le_spec. apply rank_compare_Gt in E.
        unfold ranks_before in E. lia. }
      destruct Hhd as [|z l Hyz]; simpl.
      * now constructor.
      * destruct (rank_compare x z); now constructor.
Qed.

Lemma getSnapshot_perm (e : engine) : getSnapshot e ≡ₚ table e.
Proof.
  unfold getSnapshot. induction (table e) as [|x l IH]; simpl;
    [reflexivity|].
  now rewrite insert_ranked_perm, IH.
Qed.

Lemma getSnapshot_sorted (e : engine) :
  StronglySorted ranks_le (getSnapshot e).
Proof.
  apply Sorted_StronglySorted; [exact ranks_le_trans|].
  unfold getSnapshot. induction (table e) as [|x l IH]; simpl.
  - constructor.
  - now apply insert_ranked_sorted.
Qed.

(** ** Invariants of the engine *)

Lemma add_points_registered (id : nat) (pts : positive)
    (t t' : list Participant) :
  add_points id pts t = Some t' ->
  List.map registered t' = List.map registered t.
Proof.
  revert t'. induction t as [|p t IH]; simpl; intros t' H; [discriminate|].
  destruct (Nat.eqb (identifier p) id).
  - injection H as <-. reflexivity.
  - destruct (add_points id pts t) as [t0|]; [|discriminate].
    injection H as <-. simpl. f_equal. now apply IH.
Qed.

Lemma exec_op_consistent (e : engine) (o : op) :
  consistent e -> consistent (exec_op e o).
Proof.
  intros [Ht Hl]. destruct o as [name|id award now]; simpl.
  - unfold registerParticipant. destruct name; [now split|].
    unfold consistent. simpl. split; [|exact Hl].
    rewrite List.map_app, length_app, Ht. simpl.
    now rewrite Nat.add_1_r, seq_S.
  - unfold claim.
    destruct (add_points id award (table e)) as [t|] eqn:E; [|now split].
    unfold consistent. simpl. split.
    + pose proof (add_points_registered _ _ _ _ E) as Hr.
      rewrite Hr, Ht. f_equal.
      apply (f_equal (@length nat)) in Hr.
      now rewrite !length_map in Hr.
    + rewrite List.map_app, length_app, Hl. simpl.
      now rewrite Nat.add_1_r, seq_S.
Qed.

Lemma exec_consistent (ops : list op) : consistent (exec ops).
Proof.
  unfold exec.
  assert (H : consistent initial) by (split; reflexivity).
  revert H. generalize initial.
  induction ops as [|o ops IH]; intros e He; simpl; [exact He|].
  apply IH. now apply exec_op_consistent.
Qed.

Lemma NoDup_map_injective {A B} (f : A -> B) (l : list A) (a b : A) :
  NoDup (List.map f l) -> a ∈ l -> b ∈ l -> f a = f b -> a = b.
Proof.
  induction l as [|x l IH]; simpl; intros Hnd Ha Hb Hf.
  - now apply elem_of_nil in Ha.
  - apply NoDup_cons in Hnd as [Hx Hnd].
    apply elem_of_cons in Ha as [->|Ha]; apply elem_of_cons in Hb as [->|Hb].
    + reflexivity.
    + exfalso. apply Hx. rewrite Hf. apply list_elem_of_In.
      apply in_map. now apply list_elem_of_In.
    + exfalso. apply Hx. rewrite <- Hf. apply list_elem_of_In.
      apply in_map. now apply list_elem_of_In.
    + now apply IH.
Qed.

(** With distinct registration numbers, no two entries tie. *)
Lemma ranks_le_strict (l : list Participant) :
  StronglySorted ranks_le l -> NoDup (List.map registered l) ->
  StronglySorted ranks_before l.
Proof.
  induction 1 as [|a l Hl IH Ha]; intros Hnd; [constructor|].
  simpl in Hnd. apply NoDup_cons in Hnd as [Hnotin Hnd].
  constructor; [now apply IH|].
  rewrite Forall_forall in Ha |- *. intros b Hb.
  pose proof (Ha b Hb) as Hab. apply ranks_le_spec in Hab.
  assert (registered a <> registered b).
  { intros E. apply Hnotin. rewrite E. apply list_elem_of_In.
    apply in_map. now apply list_elem_of_In. }
  unfold ranks_before. lia.
Qed.

(** C5: every snapshot the engine produces, after any sequence of
    registrations and claims, holds exactly the registered participants,
    sorted by total points descending with ties broken by earliest
    registration; the order is strict: each entry ranks strictly before
    all later ones, and two entries that compare equal are the same
    entry. *)
Theorem getSnapshot_strict_total_order (ops : list op) :
  let snapshot := getSnapshot (exec ops) in
  StronglySorted ranks_before snapshot
  /\ snapshot ≡ₚ table (exec ops)
  /\ (forall a b, a ∈ snapshot -> b ∈ snapshot ->
        rank_compare a b = Eq -> a = b)
  /\ (forall a b, a ∈ snapshot -> b ∈ snapshot -> a <> b ->
        ranks_before a b \/ ranks_before b a).
Proof.
  simpl. pose proof (exec_consistent ops) as [Hreg _].
  pose proof (getSnapshot_perm (exec ops)) as Hperm.
  pose proof (getSnapshot_sorted (exec ops)) as Hsorted.
  assert (Hnd : NoDup (List.map registered (getSnapshot (exec ops)))).
  { assert (Hp : List.map registered (getSnapshot (exec ops))
                 ≡ₚ List.map registered (table (exec ops))).
    { now apply Permutation_map. }
    rewrite Hp, Hreg. apply NoDup_seq. }
  assert (Heq : forall a b, a ∈ getSnapshot (exec ops) ->
                  b ∈ getSnapshot (exec ops) ->
                  registered a = registered b -> a = b).
  { intros a b Ha Hb E.
    exact (NoDup_map_injective registered _ a b Hnd Ha Hb E). }
  split; [|split; [exact Hperm|split]].
  - now apply ranks_le_strict.
  - intros a b Ha Hb E. apply rank_compare_Eq in E as [_ E]. now apply Heq.
  - intros a b Ha Hb Hne.
    assert (registered a <> registered b) by (intros E; now apply Hne, Heq).
    unfold ranks_before. lia.
Qed.

(** ** Claim history of the ledger *)

Lemma numbered_sorted (l : list ClaimRecord) :
  forall k, List.map sequence l = seq k (length l) ->
  StronglySorted (fun a b => sequence a < sequence b) l
  /\ Forall (fun r => k <= sequence r) l.
Proof.
  induction l as [|r l IH]; intros k H; simpl in H.
  - split; constructor.
  - injection H as Hr Hl. destruct (IH _ Hl) as [Hs Hk].
    split.
    + constructor; [exact Hs|].
      eapply Forall_impl; [exact Hk|]. simpl. intros x Hx. lia.
    + constructor; [lia|].
      eapply Forall_impl; [exact Hk|]. simpl. intros x Hx. lia.
Qed.

Lemma StronglySorted_rev {A} (R : relation A) (l : list A) :
  StronglySorted R l -> StronglySorted (flip R) (rev l).
Proof.
  induction 1 as [|x l Hl IH Hx]; simpl; [constructor|].
  apply StronglySorted_app_2.
  - intros a b Ha Hb. apply list_elem_of_singleton in Hb as ->.
    rewrite Forall_forall in Hx. apply Hx.
    apply list_elem_of_In. apply in_rev. now apply list_elem_of_In.
  - exact IH.
  - repeat constructor.
Qed.

Lemma StronglySorted_filter {A} (R : relation A) (f : A -> bool)
    (l : list A) :
  StronglySorted R l -> StronglySorted R (List.filter f l).
Proof.
  induction 1 as [|x l Hl IH Hx]; simpl; [constructor|].
  destruct (f x); [|exact IH].
  constructor; [exact IH|].
  rewrite Forall_forall in Hx |- *. intros y Hy. apply Hx.
  apply list_elem_of_In in Hy. apply filter_In in Hy as [Hy _].
  now apply list_elem_of_In.
Qed.

Lemma StronglySorted_take {A} (R : relation A) (n : nat) (l : list A) :
  StronglySorted R l -> StronglySorted R (take n l).
Proof.
  intros H. rewrite <- (take_drop n l) in H.
  now apply StronglySorted_app_1_l in H.
Qed.

Lemma filter_all {A} (f : A -> bool) (l : list A) :
  Forall (fun x => f x = true) l -> List.filter f l = l.
Proof.
  induction 1 as [|x l Hx _ IH]; simpl; [reflexivity|].
  now rewrite Hx, IH.
Qed.

Lemma filter_none {A} (f : A -> bool) (l : list A) :
  Forall (fun x => f x = false) l -> List.filter f l = [].
Proof.
  induction 1 as [|x l Hx _ IH]; simpl; [reflexivity|].
  now rewrite Hx.
Qed.

Lemma filter_filter_implied {A} (f g : A -> bool) (l : list A) :
  (forall x, g x = true -> f x = true) ->
  List.filter g (List.filter f l) = List.filter g l.
Proof.
  intros Himp. induction l as [|x l IH]; simpl; [reflexivity|].
  destruct (f x) eqn:Ef; simpl.
  - destruct (g x); now rewrite IH.
  - destruct (g x) eqn:Eg; [|exact IH].
    apply Himp in Eg. congruence.
Qed.

Lemma take_plus {A} (n m : nat) (l : list A) :
  take (n + m) l = take n l ++ take m (drop n l).
Proof.
  revert l. induction n as [|n IH]; intros l; simpl; [reflexivity|].
  destruct l as [|x l]; simpl.
  - now rewrite take_nil.
  - now rewrite IH.
Qed.

Lemma cursor_test_spec (before : option nat) (r : ClaimRecord) :
  cursor_test before r = true <-> below_cursor before r.
Proof.
  destruct before as [c|]; simpl; [apply Nat.ltb_lt|tauto].
Qed.

Section Ledger.

Variable l : list ClaimRecord.
Hypothesis numbered : List.map sequence l = seq 0 (length l).

Lemma newest_first_sorted (before : option nat) :
  StronglySorted newer (List.filter (cursor_test before) (rev l)).
Proof.
  apply StronglySorted_filter.
  apply (StronglySorted_rev (fun a b => sequence a < sequence b)).
  now apply (numbered_sorted l 0).
Qed.

Lemma history_sorted (limit : nat) (before : option nat) :
  StronglySorted newer (history limit before l).
Proof. apply StronglySorted_take, newest_first_sorted. Qed.

Lemma history_sound (limit : nat) (before : option nat) (r : ClaimRecord) :
  r ∈ history limit before l -> r ∈ l /\ below_cursor before r.
Proof.
  unfold history. intros H. apply subseteq_take in H.
  apply list_elem_of_In, filter_In in H as [Hin Hc].
  split.
  - apply list_elem_of_In. now apply in_rev.
  - now apply cursor_test_spec.
Qed.

Lemma history_complete (limit : nat) (before : option nat)
    (r : ClaimRecord) :
  r ∈ l -> below_cursor before r ->
  r ∈ history limit before l
  \/ (length (history limit before l) = limit
      /\ forall x, x ∈ history limit before l -> newer x r).
Proof.
  intros Hin Hc. unfold history.
  pose proof (newest_first_sorted before) as Hs.
  set (F := List.filter (cursor_test before) (rev l)) in *.
  assert (HF : r ∈ F).
  { apply list_elem_of_In, filter_In. split.
    - apply in_rev. rewrite rev_involutive. now apply list_elem_of_In.
    - now apply cursor_test_spec. }
  rewrite <- (take_drop limit F) in HF, Hs.
  apply elem_of_app in HF as [HF|HF]; [now left|right].
  split.
  - rewrite length_take. apply Nat.min_l.
    destruct (Nat.le_gt_cases limit (length F)) as [Hle|Hgt]; [exact Hle|].
    rewrite drop_ge in HF by lia. now apply elem_of_nil in HF.
  - intros x Hx. now apply (StronglySorted_app_1_elem_of _ _ _ _ _ Hs).
Qed.

(** The record that ends a page is the cursor of the next page. *)
Lemma history_next_page (limit more : nat) (before : option nat)
    (r : ClaimRecord) :
  last (history limit before l) = Some r ->
  history (limit + more) before l =
  history limit before l ++ history more (Some (sequence r)) l.
Proof.
  unfold history. intros Hlast.
  pose proof (newest_first_sorted before) as Hs.
  set (F := List.filter (cursor_test before) (rev l)) in *.
  rewrite take_plus. f_equal. f_equal.
  apply last_Some in Hlast as [P HP].
  assert (HrF : r ∈ F).
  { apply (subseteq_take limit). rewrite HP. apply elem_of_app. right.
    now apply list_elem_of_singleton. }
  assert (Hrc : cursor_test before r = true).
  { apply list_elem_of_In, filter_In in HrF. tauto. }
  rewrite <- (filter_filter_implied (cursor_test before)).
  2:{ intros x Hx. simpl in Hx. apply Nat.ltb_lt in Hx.
      destruct before as [c|]; simpl in *; [|reflexivity].
      apply Nat.ltb_lt in Hrc. apply Nat.ltb_lt. lia. }
  fold F. rewrite <- (take_drop limit F) at 2.
  rewrite <- (take_drop limit F) in Hs.
  rewrite List.filter_app, filter_none, filter_all; [reflexivity| |].
  - apply Forall_forall. intros x Hx. simpl. apply Nat.ltb_lt.
    apply (StronglySorted_app_1_elem_of _ _ _ r x Hs); [|exact Hx].
    rewrite HP. apply elem_of_app. right. now apply list_elem_of_singleton.
  - apply StronglySorted_app_1_l in Hs. rewrite HP in Hs |- *.
    apply Forall_forall. intros x Hx. simpl. apply Nat.ltb_ge.
    apply elem_of_app in Hx as [Hx|Hx].
    + pose proof (StronglySorted_app_1_elem_of _ _ _ x r Hs Hx) as Hn.
      unfold newer in Hn. specialize (Hn ltac:(now apply list_elem_of_singleton)). lia.
    + apply list_elem_of_singleton in Hx as ->. lia.
Qed.

End Ledger.

(** C6: for every limit, every cursor and every ledger the engine can
    reach, [history] returns records newest first (strictly decreasing
    sequence numbers), at most [limit] of them, all from the ledger and
    below the cursor, and none that qualifies is skipped in favour of an
    older one; the sequence number of the last record of a page is the
    cursor that continues it.  In the scenario of the specification, where
    both claims carry the same timestamp, [listHistory(2)] returns the
    claim of B (20 points) before the claim of A (10 points). *)
Theorem history_newest_first
    (ops : list op) (limit : nat) (before : option nat) :
  let l := ledger (exec ops) in
  let page := history limit before l in
  StronglySorted newer page
  /\ length page <= limit
  /\ (forall r, r ∈ page -> r ∈ l /\ below_cursor before r)
  /\ (forall r, r ∈ l -> below_cursor before r ->
        r ∈ page
        \/ (length page = limit /\ forall x, x ∈ page -> newer x r))
  /\ (forall r more, last page = Some r ->
        history (limit + more) before l =
        page ++ history more (Some (sequence r)) l)
  /\ listHistory 2 (exec scenario) =
       [mkClaimRecord 1 20 1000 1; mkClaimRecord 0 10 1000 0].
Proof.
  simpl. pose proof (exec_consistent ops) as [_ Hnum].
  split; [|split; [|split; [|split; [|split]]]].
  - now apply history_sorted.
  - unfold history. rewrite length_take. lia.
  - intros r. apply history_sound.
  - intros r. now apply history_complete.
  - intros r more. now apply history_next_page.
  - reflexivity.
Qed.

Lemma history_newest_first_witness :
  let l := ledger (exec scenario) in
  StronglySorted newer (history 1 None l)
  /\ length (history 1 None l) <= 1
  /\ (forall r, r ∈ history 1 None l -> r ∈ l /\ below_cursor None r)
  /\ (forall r, r ∈ l -> below_cursor None r ->
        r ∈ history 1 None l
        \/ (length (history 1 None l) = 1
            /\ forall x, x ∈ history 1 None l -> newer x r))
  /\ (forall r more, last (history 1 None l) = Some r ->
        history (1 + more) None l =
        history 1 None l ++ history more (Some (sequence r)) l)
  /\ listHistory 2 (exec scenario) =
       [mkClaimRecord 1 20 1000 1; mkClaimRecord 0 10 1000 0].
Proof. exact (history_newest_first scenario 1 None). Defined.

(** The scenario of the specification, snapshot by snapshot. *)
Lemma scenario_snapshots :
  List.map (fun p => (displayName p, totalPoints p))
    (getSnapshot (exec (take 4 scenario)))
  = [(lit "A", 10%N); (lit "B", 0%N); (lit "C", 0%N)]
  /\ List.map (fun p => (displayName p, totalPoints p))
       (getSnapshot (exec scenario))
     = [(lit "B", 20%N); (lit "A", 10%N); (lit "C", 0%N)].
Proof. split; reflexivity. Qed.

(** A claim on an identifier nobody registered under is refused and
    leaves the engine as it was. *)
Lemma claim_unknown_participant
    (id : nat) (award : positive) (now : N) (e : engine) :
  Forall (fun p => identifier p <> id) (table e) ->
  claim id award now e = (e, inr NotFoundError).
Proof.
  intros H. unfold claim.
  assert (E : add_points id award (table e) = None).
  { induction H as [|p t Hp _ IH]; simpl; [reflexivity|].
    apply Nat.eqb_neq in Hp. now rewrite Hp, IH. }
  now rewrite E.
Qed.

(** ** Merging pushed records into a cached ledger *)

Lemma has_sequence_insert_record (n : nat) (r : ClaimRecord)
    (l : list ClaimRecord) :
  has_sequence n (insert_record r l)
  = Nat.eqb (sequence r) n || has_sequence n l.
Proof.
  unfold has_sequence. induction l as [|x l IH]; simpl; [reflexivity|].
  destruct (sequence r <? sequence x); simpl; [reflexivity|].
  rewrite IH. destruct (Nat.eqb (sequence x) n), (Nat.eqb (sequence r) n);
    reflexivity.
Qed.

Lemma has_sequence_merge_one (n : nat) (r : ClaimRecord)
    (l : list ClaimRecord) :
  has_sequence n (merge_one l r)
  = has_sequence n l || Nat.eqb (sequence r) n.
Proof.
  unfold merge_one. destruct (has_sequence (sequence r) l) eqn:E.
  - destruct (Nat.eqb_spec (sequence r) n) as [<-|_].
    + now rewrite E.
    + now rewrite orb_false_r.
  - rewrite has_sequence_insert_record. apply orb_comm.
Qed.

Lemma has_sequence_mergeRemote (n : nat) (b l : list ClaimRecord) :
  has_sequence n (mergeRemote b l) = has_sequence n l || has_sequence n b.
Proof.
  unfold mergeRemote. revert l.
  induction b as [|r b IH]; intros l; simpl.
  - now rewrite orb_false_r.
  - rewrite IH, has_sequence_merge_one. now rewrite orb_assoc.
Qed.

(** A batch whose sequence numbers are all held already changes
    nothing. *)
Lemma mergeRemote_absorb (b l : list ClaimRecord) :
  Forall (fun r => has_sequence (sequence r) l = true) b ->
  mergeRemote b l = l.
Proof.
  unfold mergeRemote. induction 1 as [|r b Hr _ IH]; simpl; [reflexivity|].
  unfold merge_one at 2. now rewrite Hr.
Qed.

Lemma has_sequence_elem_of (r : ClaimRecord) (l : list ClaimRecord) :
  r ∈ l -> has_sequence (sequence r) l = true.
Proof.
  intros H. apply existsb_exists. exists r.
  split; [now apply list_elem_of_In|apply Nat.eqb_refl].
Qed.

Lemma has_sequence_spec (n : nat) (l : list ClaimRecord) :
  has_sequence n l = true <-> n ∈ List.map sequence l.
Proof.
  unfold has_sequence. rewrite existsb_exists, list_elem_of_In, in_map_iff.
  split; intros (r & H1 & H2); exists r.
  - apply Nat.eqb_eq in H2. tauto.
  - split; [tauto|]. apply Nat.eqb_eq. tauto.
Qed.

Lemma insert_record_perm (r : ClaimRecord) (l : list ClaimRecord) :
  insert_record r l ≡ₚ r :: l.
Proof.
  induction l as [|x l IH]; simpl; [reflexivity|].
  destruct (sequence r <? sequence x); [reflexivity|].
  rewrite IH. apply Permutation_swap.
Qed.

Lemma merge_one_NoDup (r : ClaimRecord) (l : list ClaimRecord) :
  NoDup (List.map sequence l) -> NoDup (List.map sequence (merge_one l r)).
Proof.
  intros H. unfold merge_one.
  destruct (has_sequence (sequence r) l) eqn:E; [exact H|].
  assert (Hp : List.map sequence (insert_record r l)
               ≡ₚ sequence r :: List.map sequence l).
  { change (sequence r :: List.map sequence l)
      with (List.map sequence (r :: l)).
    apply Permutation_map, insert_record_perm. }
  rewrite Hp. apply NoDup_cons. split; [|exact H].
  intros Hin. apply has_sequence_spec in Hin. congruence.
Qed.

Lemma mergeRemote_NoDup (b l : list ClaimRecord) :
  NoDup (List.map sequence l) ->
  NoDup (List.map sequence (mergeRemote b l)).
Proof.
  unfold mergeRemote. revert l.
  induction b as [|r b IH]; intros l H; simpl; [exact H|].
  apply IH. now apply merge_one_NoDup.
Qed.

Lemma insert_record_sorted (r : ClaimRecord) (l : list ClaimRecord) :
  has_sequence (sequence r) l = false ->
  Sorted (fun a b => sequence a < sequence b) l ->
  Sorted (fun a b => sequence a < sequence b) (insert_record r l).
Proof.
  intros Hnew. induction 1 as [|x l Hl IH Hhd]; simpl.
  - repeat constructor.
  - simpl in Hnew. apply orb_false_elim in Hnew as [Hx Hnew].
    apply Nat.eqb_neq in Hx.
    destruct (Nat.ltb_spec (sequence r) (sequence x)) as [Hlt|Hge].
    + repeat constructor; assumption.
    + constructor; [now apply IH|].
      destruct Hhd as [|y l Hxy]; simpl.
      * constructor. lia.
      * destruct (sequence r <? sequence y); constructor; [lia|exact Hxy].
Qed.

(** Merging keeps a ledger ordered by sequence number. *)
Lemma mergeRemote_sorted (b l : list ClaimRecord) :
  Sorted (fun a b => sequence a < sequence b) l ->
  Sorted (fun a b => sequence a < sequence b) (mergeRemote b l).
Proof.
  unfold mergeRemote. revert l.
  induction b as [|r b IH]; intros l H; simpl; [exact H|].
  apply IH. unfold merge_one.
  destruct (has_sequence (sequence r) l) eqn:E; [exact H|].
  now apply insert_record_sorted.
Qed.

(** C7: [mergeRemote] is idempotent and deduplicates by sequence number.
    Merging the same batch a second time changes nothing; more generally a
    second batch whose sequence numbers all occur in the ledger or in the
    first batch changes nothing; two batches merged one after the other
    give what one merge of both gives; the merged ledger holds exactly the
    sequence numbers of the ledger and of the batch; and when no sequence
    number occurs twice in the cached ledger, none occurs twice after the
    merges, however the batches overlap. *)
Theorem mergeRemote_idempotent (l b1 b2 : list ClaimRecord) :
  mergeRemote b1 (mergeRemote b1 l) = mergeRemote b1 l
  /\ (Forall (fun r => has_sequence (sequence r) l
                       || has_sequence (sequence r) b1 = true) b2 ->
      mergeRemote b2 (mergeRemote b1 l) = mergeRemote b1 l)
  /\ mergeRemote b2 (mergeRemote b1 l) = mergeRemote (b1 ++ b2) l
  /\ (forall n, has_sequence n (mergeRemote b1 l)
                = has_sequence n l || has_sequence n b1)
  /\ (NoDup (List.map sequence l) ->
      NoDup (List.map sequence (mergeRemote b2 (mergeRemote b1 l)))).
Proof.
  assert (Habsorb : forall b,
            Forall (fun r => has_sequence (sequence r) l
                             || has_sequence (sequence r) b1 = true) b ->
            mergeRemote b (mergeRemote b1 l) = mergeRemote b1 l).
  { intros b Hb. apply mergeRemote_absorb.
    eapply Forall_impl; [exact Hb|]. simpl. intros r Hr.
    now rewrite has_sequence_mergeRemote. }
  split; [|split; [|split; [|split]]].
  - apply Habsorb. apply Forall_forall. intros r Hr.
    rewrite (has_sequence_elem_of r b1 Hr). apply orb_true_r.
  - exact (Habsorb b2).
  - unfold mergeRemote. now rewrite foldl_app.
  - intros n. apply has_sequence_mergeRemote.
  - intros H. now apply mergeRemote_NoDup, mergeRemote_NoDup.
Qed.

Lemma mergeRemote_idempotent_witness :
  let r := fun n => mkClaimRecord 0 1 0 n in
  let l := [r 0] in
  let b1 := [r 0; r 1] in
  let b2 := [r 1; r 2] in
  NoDup (List.map sequence l)
  /\ mergeRemote b2 (mergeRemote b1 l) = [r 0; r 1; r 2]
  /\ NoDup (List.map sequence (mergeRemote b2 (mergeRemote b1 l))).
Proof.
  assert (H : NoDup (List.map sequence [mkClaimRecord 0 1 0 0])).
  { apply NoDup_singleton. }
  split; [exact H|]. split; [reflexivity|].
  exact (proj2 (proj2 (proj2 (proj2
           (mergeRemote_idempotent [mkClaimRecord 0 1 0 0]
              [mkClaimRecord 0 1 0 0; mkClaimRecord 0 1 0 1]
              [mkClaimRecord 0 1 0 1; mkClaimRecord 0 1 0 2])))) H).
Defined.

(** * Where the displayed lists come from

    Every state the mounted component can reach holds, in [users] and in
    [claimHistory], either the initial empty array or a document that was
    deserialised from the wire; so the properties proved above for
    deserialised lists hold for whatever the component displays. *)

Local Open Scope Z_scope.

Lemma keeps_ret {A} (R : A -> Prop) (a : A) : R a -> keeps_received R (ret a).
Proof. intros H net s t Hs. simpl. auto. Qed.

Lemma keeps_lift {A} (r : result A) :
  keeps_received (fun _ => True) (lift r).
Proof. intros net s t Hs. simpl. split; [exact Hs|now destruct r]. Qed.

Lemma keeps_emit (e : effect) : keeps_received (fun _ => True) (emit e).
Proof. intros net s t Hs. simpl. auto. Qed.

Lemma keeps_update (f : state -> state) :
  (forall s, received s -> received (f s)) ->
  keeps_received (fun _ => True) (update f).
Proof. intros H net s t Hs. simpl. auto. Qed.

Lemma keeps_axios (r : request) :
  keeps_received (fun v => exists j, v = deserialize j) (axios r).
Proof.
  intros net s t Hs. unfold axios. destruct (net r); simpl; eauto.
Qed.

Lemma keeps_bind {A B} (R : A -> Prop) (R' : B -> Prop) (c : M A)
    (k : A -> M B) :
  keeps_received R c -> (forall a, R a -> keeps_received R' (k a)) ->
  keeps_received R' (bind c k).
Proof.
  intros Hc Hk net s t Hs. unfold bind.
  specialize (Hc net s t Hs).
  destruct (c net s t) as [[[a|e] s'] t']; simpl in *.
  - destruct Hc as [Hs' Ha]. exact (Hk a Ha net s' t' Hs').
  - tauto.
Qed.

Lemma keeps_weaken {A} (R R' : A -> Prop) (c : M A) :
  (forall a, R a -> R' a) -> keeps_received R c -> keeps_received R' c.
Proof.
  intros Himp Hc net s t Hs. destruct (Hc net s t Hs) as [H1 H2].
  split; [exact H1|]. destruct (fst (fst (c net s t))); auto.
Qed.

Lemma keeps_try_catch_finally (body : M unit) (handler : exn -> M unit)
    (fin : M unit) :
  keeps_received (fun _ => True) body ->
  (forall e, keeps_received (fun _ => True) (handler e)) ->
  keeps_received (fun _ => True) fin ->
  keeps_received (fun _ => True) (try_catch_finally body handler fin).
Proof.
  intros Hb Hh Hf net s t Hs. unfold try_catch_finally.
  specialize (Hb net s t Hs).
  destruct (body net s t) as [[[a|e] s'] t']; simpl in Hb.
  - specialize (Hf net s' t' (proj1 Hb)).
    destruct (fin net s' t') as [[[u|e] s2] t2]; simpl in *; tauto.
  - specialize (Hh e net s' t' (proj1 Hb)).
    destruct (handler e net s' t') as [[r s1] t1]; simpl in Hh.
    specialize (Hf net s1 t1 (proj1 Hh)).
    destruct (fin net s1 t1) as [[[u|e'] s2] t2]; simpl in *;
      destruct r; tauto.
Qed.

Lemma received_same_lists (s s' : state) :
  users s' = users s -> claimHistory s' = claimHistory s ->
  received s -> received s'.
Proof. unfold received. intros -> ->. tauto. Qed.

Ltac keeps_setter :=
  apply keeps_update; intros ? ?;
  (eapply received_same_lists; [reflexivity|reflexivity|assumption]).

Ltac keeps_then tac := (eapply keeps_bind; [tac|]); intros ? ?.

Section Reachable.

Variable API_BASE_URL : option jsstring.
Variable string_positive : jsstring -> bool.

Lemma fetchClaimHistory_keeps :
  keeps_received (fun _ => True) (fetchClaimHistory API_BASE_URL).
Proof.
  unfold fetchClaimHistory, try_catch.
  apply keeps_try_catch_finally.
  - eapply keeps_bind; [apply keeps_axios|]. intros v [j ->].
    apply keeps_update. intros s [Hu _]. split; [exact Hu|].
    right. now exists j.
  - intros e. apply keeps_emit.
  - apply keeps_ret. exact I.
Qed.

Lemma fetchUsers_keeps (r : state) :
  keeps_received (fun _ => True)
    (fetchUsers API_BASE_URL string_positive r).
Proof.
  unfold fetchUsers. keeps_then keeps_setter. keeps_then keeps_setter.
  apply keeps_try_catch_finally.
  - eapply keeps_bind; [apply keeps_axios|]. intros v [j ->].
    eapply keeps_bind.
    { apply keeps_update. intros s [_ Hh]. split; [|exact Hh].
      right. now exists j. }
    intros _ _.
    keeps_then ltac:(apply keeps_lift). keeps_then ltac:(apply keeps_lift).
    destruct (_ && _).
    + keeps_then ltac:(apply keeps_lift). keeps_then ltac:(apply keeps_lift).
      keeps_setter.
    + apply keeps_ret. exact I.
  - intros e. keeps_setter.
  - keeps_setter.
Qed.

Lemma handleAddUser_keeps (r : state) :
  keeps_received (fun _ => True) (handleAddUser API_BASE_URL r).
Proof.
  unfold handleAddUser. destruct (negb _); [keeps_setter|].
  keeps_then keeps_setter. keeps_then keeps_setter.
  apply keeps_try_catch_finally.
  - eapply keeps_bind; [apply keeps_axios|]. intros v _.
    keeps_then ltac:(apply keeps_lift). keeps_then ltac:(apply keeps_lift).
    keeps_then keeps_setter. keeps_setter.
  - intros e. keeps_setter.
  - keeps_setter.
Qed.

Lemma handleClaimPoints_keeps (r : state) :
  keeps_received (fun _ => True) (handleClaimPoints API_BASE_URL r).
Proof.
  unfold handleClaimPoints. destruct (negb _); [keeps_setter|].
  keeps_then keeps_setter. keeps_then keeps_setter.
  apply keeps_try_catch_finally.
  - eapply keeps_bind; [apply keeps_axios|]. intros v _.
    keeps_then ltac:(apply keeps_lift). keeps_then keeps_setter.
    apply fetchClaimHistory_keeps.
  - intros e. keeps_setter.
  - keeps_setter.
Qed.

Lemma dispatch_keeps (e : event) (s : state) :
  keeps_received (fun _ => True)
    (dispatch API_BASE_URL string_positive e s).
Proof.
  destruct e as [|text|id| | |updatedUsers| |[]]; simpl.
  - keeps_then ltac:(apply fetchUsers_keeps). apply fetchClaimHistory_keeps.
  - keeps_setter.
  - keeps_setter.
  - destruct (loading s); [apply keeps_ret; exact I|].
    apply handleAddUser_keeps.
  - destruct (_ || _); [apply keeps_ret; exact I|].
    apply handleClaimPoints_keeps.
  - unfold on_leaderboard_update. eapply keeps_bind.
    { apply keeps_update. intros s0 [_ Hh]. split; [|exact Hh].
      right. now exists updatedUsers. }
    intros _ _. keeps_then keeps_setter. apply keeps_emit.
  - unfold on_connect_error. keeps_then ltac:(apply keeps_emit).
    keeps_setter.
  - keeps_setter.
Qed.

(** In every reachable state both displayed lists are the initial empty
    array or a deserialised document. *)
Lemma reachable_received (s : state) :
  reachable API_BASE_URL string_positive s -> received s.
Proof.
  induction 1 as [|net e s _ IH].
  - split; now left.
  - unfold step. exact (proj1 (dispatch_keeps e s net s [] IH)).
Qed.

(** The rank shown for a participant of any user list the component can
    reach is its position plus one. *)
Lemma reachable_rank_is_position (s : state) (o : oid) (us : list value)
    (i : nat) (o' : oid) (fs : list (jsstring * value)) :
  reachable API_BASE_URL string_positive s ->
  users s = VArr o us -> us !! i = Some (VObj o' fs) ->
  rank us (VObj o' fs) = Z.of_nat i + 1.
Proof.
  intros Hr Hu Hi. apply reachable_received in Hr as [[Hinit|[j Hj]] _].
  - rewrite Hinit in Hu. injection Hu as _ <-. now rewrite lookup_nil in Hi.
  - rewrite Hj in Hu. unfold deserialize in Hu.
    destruct j; try discriminate Hu.
    rewrite parse_JArr in Hu. injection Hu as _ <-.
    now apply rank_parse_elems.
Qed.

End Reachable.

(** X19: in every state the mounted component can reach, the ranks the
    podium and the list display are the positions in the user list: card
    [i] of the podium shows [i + 1] and row [i] of the list shows
    [3 + i + 1]. *)
Theorem reachable_displayed_ranks
    (API_BASE_URL : option jsstring) (string_positive : jsstring -> bool)
    (toUpperCase : jsstring -> jsstring)
    (s : state) (o : oid) (us : list value) :
  reachable API_BASE_URL string_positive s ->
  users s = VArr o us ->
  (forall cards i c,
     render_podium toUpperCase us = Ok cards -> cards !! i = Some c ->
     pc_rank c = Z.of_nat i + 1)
  /\ (forall rows i r,
        render_rest toUpperCase us = Ok rows -> rows !! i = Some r ->
        lr_rank r = Z.of_nat (3 + i) + 1).
Proof.
  intros Hreach Hus. split.
  - intros cards i c Hr Hi. unfold render_podium in Hr.
    apply rmapi_lookup in Hr as [_ Hlook].
    destruct (Hlook _ _ Hi) as (u & Hu & Hc). simpl in Hc.
    rewrite topThree_take in Hu. apply lookup_take_Some in Hu as [Hu _].
    apply render_podium_card_rank in Hc as (-> & _ & o' & fs & ->).
    exact (reachable_rank_is_position _ _ _ _ _ _ _ _ Hreach Hus Hu).
  - intros rows i r Hr Hi. unfold render_rest in Hr.
    apply rmap_Forall2 in Hr. rewrite rest_drop in Hr.
    destruct (Forall2_lookup_r _ _ _ _ _ Hr Hi) as (u & Hu & Hrow).
    rewrite lookup_drop in Hu.
    apply render_list_row_rank in Hrow as (-> & o' & fs & ->).
    exact (reachable_rank_is_position _ _ _ _ _ _ _ _ Hreach Hus Hu).
Qed.

Lemma reachable_displayed_ranks_witness :
  let ann := JObj [(lit "username", JStr (lit "ann"))] in
  let s := step None (fun _ => false) (fun _ => Rejected None)
             (LeaderboardUpdate (JArr [ann; ann])) initial_state in
  reachable None (fun _ => false) s
  /\ users s = VArr [] (parse_elems [] 0 [ann; ann])
  /\ forall cards i c,
       render_podium (fun x => x) (parse_elems [] 0 [ann; ann]) = Ok cards ->
       cards !! i = Some c -> pc_rank c = Z.of_nat i + 1.
Proof.
  assert (Hs : reachable None (fun _ => false)
                 (step None (fun _ => false) (fun _ => Rejected None)
                    (LeaderboardUpdate
                       (JArr [JObj [(lit "username", JStr (lit "ann"))];
                              JObj [(lit "username", JStr (lit "ann"))]]))
                    initial_state)).
  { apply reachable_step, reachable_initial. }
  split; [exact Hs|]. split; [reflexivity|].
  exact (proj1 (reachable_displayed_ranks None (fun _ => false) (fun x => x)
                  _ _ _ Hs eq_refl)).
Defined.
